(** * branch_vacuum: interactive cleanup of local-only git branches

    A shallow embedding of [branch_vacuum.py] and the properties of its
    branch listing, candidate computation and confirm-and-delete loop.

    Python [str] values are sequences of Unicode code points; they are
    modelled as lists of code points ([N]), so that [str.strip],
    [str.splitlines], [str.startswith] and [str.replace] keep their exact
    meaning on every text. *)

From Stdlib Require Import List NArith ZArith Bool Ascii String Lia.
Import ListNotations.

(** ** Python strings *)

Module PyStr.

Definition char := N.
Definition str := list char.

(** An ASCII literal of the source, as code points. *)
Definition lit (s : string) : str :=
  map N_of_ascii (list_ascii_of_string s).

Definition char_eqb (a b : char) : bool := N.eqb a b.

Fixpoint eqb (s t : str) : bool :=
  match s, t with
  | [], [] => true
  | a :: s', b :: t' => char_eqb a b && eqb s' t'
  | _, _ => false
  end.

Definition str_eq_dec : forall s t : str, {s = t} + {s <> t} :=
  list_eq_dec N.eq_dec.

(** [x in xs] for a list or tuple of strings. *)
Fixpoint contains (x : str) (xs : list str) : bool :=
  match xs with
  | [] => false
  | y :: ys => eqb x y || contains x ys
  end.

(** [str.isspace] on one code point: the white space of the Unicode
    database, which is what [str.strip()] removes. *)
Definition isspace (c : char) : bool :=
  ((9 <=? c) && (c <=? 13) ||
   (28 <=? c) && (c <=? 32) ||
   (c =? 133) || (c =? 160) || (c =? 5760) ||
   (8192 <=? c) && (c <=? 8202) ||
   (c =? 8232) || (c =? 8233) || (c =? 8239) || (c =? 8287) ||
   (c =? 12288))%N.

(** The line boundaries of [str.splitlines]. *)
Definition islinebreak (c : char) : bool :=
  ((10 <=? c) && (c <=? 13) ||
   (28 <=? c) && (c <=? 30) ||
   (c =? 133) || (c =? 8232) || (c =? 8233))%N.

Fixpoint lstrip (s : str) : str :=
  match s with
  | [] => []
  | c :: t => if isspace c then lstrip t else s
  end.

Definition rstrip (s : str) : str := rev (lstrip (rev s)).

(** [s.strip()] *)
Definition strip (s : str) : str := rstrip (lstrip s).

(** [s.splitlines()]: a line ends at a line boundary, [\r\n] counts as
    one boundary, and a final boundary opens no further line. *)
Fixpoint splitlines (s : str) : list str :=
  match s with
  | [] => []
  | c :: t =>
      if islinebreak c then
        [] :: match t with
              | c2 :: t2 =>
                  if ((c =? 13) && (c2 =? 10))%N then splitlines t2
                  else splitlines t
              | [] => []
              end
      else
        match splitlines t with
        | [] => [[c]]
        | l :: ls => (c :: l) :: ls
        end
  end.

(** [s.startswith(p)] *)
Fixpoint startswith (p s : str) : bool :=
  match p, s with
  | [], _ => true
  | a :: p', b :: s' => char_eqb a b && startswith p' s'
  | _ :: _, [] => false
  end.

(** [s.replace(old, new, 1)]: the leftmost occurrence of [old] only. *)
Fixpoint replace1 (old new s : str) : str :=
  if startswith old s then new ++ skipn (List.length old) s
  else match s with
       | [] => []
       | c :: t => c :: replace1 old new t
       end.

(** [str.lower] on one code point.  The mapping is the Unicode one on the
    code points below U+0100; above, it leaves the code point alone.  No
    code point other than [Y] and [N] lowercases to [y] or [n], so the
    comparison of an answer with ["y"], ["n"] and [""] is not affected. *)
Definition lower_char (c : char) : char :=
  (if (65 <=? c) && (c <=? 90) then c + 32
   else if (192 <=? c) && (c <=? 222) && negb (c =? 215) then c + 32
   else c)%N.

Definition lower (s : str) : str := map lower_char s.

End PyStr.

Import PyStr.

(** ** Effects: subprocesses, standard streams, exceptions *)

(** What the process does that can be observed from outside, oldest
    first. *)
Inductive event :=
| Subprocess (cmd : list str) (capture_output : bool)
| Stdout (line : str)
| Prompt (text : str).

Definition trace := list event.

Record CompletedProcess := { returncode : Z; stdout : str }.

Inductive exn :=
| CalledProcessError (code : Z) (cmd : list str)
| SystemExit (code : Z)
| EOFError.

Inductive outcome (A : Type) :=
| Return (a : A)
| Raise (e : exn).
Arguments Return {A} a.
Arguments Raise {A} e.

(** A computation extends the trace and returns or raises. *)
Definition M (A : Type) := trace -> outcome A * trace.

Definition ret {A} (a : A) : M A := fun tr => (Return a, tr).
Definition raise {A} (e : exn) : M A := fun tr => (Raise e, tr).
Definition bind {A B} (m : M A) (k : A -> M B) : M B :=
  fun tr => match m tr with
            | (Return a, tr') => k a tr'
            | (Raise e, tr') => (Raise e, tr')
            end.
Definition emit (ev : event) : M unit := fun tr => (Return tt, tr ++ [ev]).

(** [try: body except <the exceptions h is defined on>: h e] *)
Definition try_except {A} (body : M A) (h : exn -> option (M A)) : M A :=
  fun tr => match body tr with
            | (Return a, tr') => (Return a, tr')
            | (Raise e, tr') =>
                match h e with
                | Some handler => handler tr'
                | None => (Raise e, tr')
                end
            end.

Declare Scope py_scope.
Delimit Scope py_scope with py.
Notation "x <- m ;; k" := (bind m (fun x => k))
  (at level 61, m at next level, right associativity) : py_scope.
Notation "m ;; k" := (bind m (fun _ => k))
  (at level 61, right associativity) : py_scope.
Open Scope py_scope.

Definition print (line : str) : M unit := emit (Stdout line).
Definition sys_exit {A} (code : Z) : M A := raise (SystemExit code).

(** The literals of the source. *)
Module Lit.
Definition git := Eval cbv in lit "git".
Definition dash_C := Eval cbv in lit "-C".
Definition branch := Eval cbv in lit "branch".
Definition dash_r := Eval cbv in lit "-r".
Definition dash_D := Eval cbv in lit "-D".
Definition dash_d := Eval cbv in lit "-d".
Definition format := Eval cbv in lit "--format".
Definition refname_short := Eval cbv in lit "%(refname:short)".
Definition rev_parse := Eval cbv in lit "rev-parse".
Definition is_inside_work_tree := Eval cbv in lit "--is-inside-work-tree".
Definition fetch := Eval cbv in lit "fetch".
Definition prune := Eval cbv in lit "--prune".
Definition origin_slash := Eval cbv in lit "origin/".
Definition main := Eval cbv in lit "main".
Definition master := Eval cbv in lit "master".
Definition y := Eval cbv in lit "y".
Definition n := Eval cbv in lit "n".
Definition empty : str := [].
(* U+2705, U+274C, U+1F504, U+1F389, U+27A1 U+FE0F *)
Definition check_mark : str := [9989%N].
Definition cross_mark : str := [10060%N].
Definition arrows : str := [128260%N].
Definition party : str := [127881%N].
Definition right_arrow : str := [10145%N; 65039%N].
End Lit.

(** The f-strings and messages of the source. *)
Definition msg_deleted (branch : str) : str :=
  Lit.check_mark ++ lit " Deleted branch: " ++ branch.
Definition msg_could_not_delete (branch : str) : str :=
  Lit.cross_mark ++ lit " Could not delete branch '" ++ branch
    ++ lit "'. Maybe it's the current branch?".
Definition msg_not_a_repository (repo_dir : str) : str :=
  Lit.cross_mark ++ lit " " ++ repo_dir ++ lit " is not a valid git repository.".
Definition msg_fetching : str :=
  Lit.arrows ++ lit " Fetching latest remote info...".
Definition msg_fetch_complete : str :=
  Lit.check_mark ++ lit " Fetch complete.".
Definition msg_no_local_only : str :=
  Lit.party ++ lit " No local-only branches found.".
Definition msg_prompt (branch : str) : str :=
  lit "Branch '" ++ branch ++ lit "' exists only locally. Delete? [y/N]: ".
Definition msg_keeping (branch : str) : str :=
  Lit.right_arrow ++ lit " Keeping branch: " ++ branch.
Definition msg_please_answer : str :=
  lit "Please answer with 'y' or 'n'.".

(** ** The program *)

(** [only_local] of [main]:
    [[b for b in local_branches
        if b not in remote_branches and b not in ("main", "master")]] *)
Definition only_local (local_branches remote_branches : list str) : list str :=
  filter (fun b => negb (contains b remote_branches)
                   && negb (contains b [Lit.main; Lit.master]))
         local_branches.

(** The comprehension of [get_remote_branches], on the lines the command
    runner returned. *)
Definition normalize_remote (branches : list str) : list str :=
  map (fun b => replace1 Lit.origin_slash Lit.empty (strip b))
      (filter (fun b => startswith Lit.origin_slash (strip b)) branches).

(** What [run_git_command] returns in capturing mode, from the text the
    tool wrote: [result.stdout.strip().splitlines()]. *)
Definition captured_lines (out : str) : list str := splitlines (strip out).

Section Program.

(** The external tool: how a [git] invocation ends, given everything that
    happened before it. *)
Variable git : trace -> list str -> CompletedProcess.

(** [subprocess.run(cmd, capture_output=..., check=True)] *)
Definition subprocess_run (cmd : list str) (capture_output : bool)
  : M CompletedProcess :=
  fun tr =>
    let result := git tr cmd in
    let tr' := tr ++ [Subprocess cmd capture_output] in
    if (returncode result =? 0)%Z then (Return result, tr')
    else (Raise (CalledProcessError (returncode result) cmd), tr').

(** The parameter [silent] of the source is never read and is left out. *)
Definition run_git_command (args : list str) (repo_dir : str) (capture : bool)
  : M (list str) :=
  result <- subprocess_run ([Lit.git; Lit.dash_C; repo_dir] ++ args) capture ;;
  if capture then ret (captured_lines (stdout result)) else ret [].

Definition get_local_branches (repo_dir : str) : M (list str) :=
  run_git_command [Lit.branch; Lit.format; Lit.refname_short] repo_dir true.

Definition get_remote_branches (repo_dir : str) : M (list str) :=
  branches <- run_git_command
                [Lit.branch; Lit.dash_r; Lit.format; Lit.refname_short]
                repo_dir true ;;
  ret (normalize_remote branches).

Definition delete_cmd (branch repo_dir : str) (force : bool) : list str :=
  [Lit.git; Lit.dash_C; repo_dir; Lit.branch;
   if force then Lit.dash_D else Lit.dash_d; branch].

Definition delete_branch (branch repo_dir : str) (force : bool) : M unit :=
  let cmd := delete_cmd branch repo_dir force in
  try_except
    (subprocess_run cmd false ;; print (msg_deleted branch))
    (fun e => match e with
              | CalledProcessError _ _ =>
                  Some (print (msg_could_not_delete branch))
              | _ => None
              end).

(** [input(prompt)]: the prompt is written, then one line is read; at the
    end of the input [EOFError] is raised. *)
Definition input (prompt : str) (lines : list str) : M (str * list str) :=
  emit (Prompt prompt) ;;
  match lines with
  | [] => raise EOFError
  | line :: rest => ret (line, rest)
  end.

(** The [while True] loop of [main] for one branch.  Every turn reads one
    line, so the loop is structural in the lines left to read; it returns
    the lines it has not read.  [confirm_loop_input] below states it with
    [input]. *)
Fixpoint confirm_loop (branch repo_dir : str) (safe : bool)
    (lines : list str) : M (list str) :=
  (* input(...), unfolded so that the recursion on the lines shows *)
  emit (Prompt (msg_prompt branch)) ;;
  match lines with
  | [] => raise EOFError
  | line :: rest =>
      let choice := lower (strip line) in
      if eqb choice Lit.y then
        delete_branch branch repo_dir (negb safe) ;; ret rest
      else if contains choice [Lit.n; Lit.empty] then
        print (msg_keeping branch) ;; ret rest
      else
        print msg_please_answer ;; confirm_loop branch repo_dir safe rest
  end.

(** [for branch in only_local: ...] *)
Fixpoint for_each_branch (branches : list str) (repo_dir : str) (safe : bool)
    (lines : list str) : M (list str) :=
  match branches with
  | [] => ret lines
  | branch :: more =>
      rest <- confirm_loop branch repo_dir safe lines ;;
      for_each_branch more repo_dir safe rest
  end.

(** [main], after [argparse] has produced [args.repo] and [args.safe];
    [lines] is what standard input holds. *)
Definition main (repo_dir : str) (safe : bool) (lines : list str) : M unit :=
  try_except
    (run_git_command [Lit.rev_parse; Lit.is_inside_work_tree] repo_dir true ;;
     ret tt)
    (fun e => match e with
              | CalledProcessError _ _ =>
                  Some (print (msg_not_a_repository repo_dir) ;; sys_exit 1%Z)
              | _ => None
              end) ;;
  print msg_fetching ;;
  run_git_command [Lit.fetch; Lit.prune] repo_dir false ;;
  print msg_fetch_complete ;;
  local_branches <- get_local_branches repo_dir ;;
  remote_branches <- get_remote_branches repo_dir ;;
  let candidates := only_local local_branches remote_branches in
  match candidates with
  | [] => print msg_no_local_only
  | _ :: _ => for_each_branch candidates repo_dir safe lines ;; ret tt
  end.

End Program.

(** ** Vocabulary of the properties *)

Definition all_space (w : str) : Prop := Forall (fun c => isspace c = true) w.

(** The first and the last code point, when there is one, is no white
    space. *)
Definition no_space_at_head (s : str) : Prop :=
  match s with [] => True | c :: _ => isspace c = false end.
Definition no_space_at_end (s : str) : Prop := no_space_at_head (rev s).

Definition no_linebreak (l : str) : Prop :=
  Forall (fun c => islinebreak c = false) l.

(** [k] is what is left of [l] when the elements that do not satisfy [P]
    are taken out: the same elements, as often, in the same order. *)
Inductive kept_in_order (P : str -> Prop) : list str -> list str -> Prop :=
| kept_nil : kept_in_order P [] []
| kept_keep b l k : P b -> kept_in_order P l k -> kept_in_order P (b :: l) (b :: k)
| kept_drop b l k : ~ P b -> kept_in_order P l k -> kept_in_order P (b :: l) k.

(** A local branch is a candidate when it is not a remote branch and not
    one of the two protected names. *)
Definition candidate (remote_branches : list str) (b : str) : Prop :=
  ~ In b remote_branches /\ b <> lit "main" /\ b <> lit "master".

(** [strip_prefix p s] is what follows [p] in [s], when [s] begins with
    [p]. *)
Fixpoint strip_prefix (p s : str) : option str :=
  match p, s with
  | [], _ => Some s
  | a :: p', b :: s' => if char_eqb a b then strip_prefix p' s' else None
  | _ :: _, [] => None
  end.

(** The remote listing as the specification words it: an entry is kept
    when, trimmed, it begins with the qualifier of the default remote, and
    what is kept is the trimmed entry without that qualifier. *)
Fixpoint list_remote_branches_spec (raw : list str) : list str :=
  match raw with
  | [] => []
  | entry :: more =>
      match strip_prefix (lit "origin/") (strip entry) with
      | Some name => name :: list_remote_branches_spec more
      | None => list_remote_branches_spec more
      end
  end.

Definition event_eq_dec : forall a b : event, {a = b} + {a <> b}.
Proof.
  decide equality;
    first [ apply Bool.bool_dec | apply str_eq_dec
          | apply (list_eq_dec str_eq_dec) ].
Defined.

(** How often the branch is asked about in a trace. *)
Definition prompts_for (branch : str) (evs : trace) : nat :=
  count_occ event_eq_dec evs (Prompt (msg_prompt branch)).

(** The answers, by their trimmed lowercased form. *)
Definition says_yes (line : str) : Prop := lower (strip line) = lit "y".
Definition says_no (line : str) : Prop :=
  lower (strip line) = lit "n" \/ lower (strip line) = [].
Definition says_other (line : str) : Prop := ~ says_yes line /\ ~ says_no line.

(** A line saying yes comes before any line saying no. *)
Definition yes_comes_first (lines : list str) : Prop :=
  exists before line after,
    lines = before ++ line :: after /\ says_yes line /\
    Forall (fun l => ~ says_no l) before.

(** The invocation of the deleter that an event is, if it is one: the
    branch and whether the deletion is forced ([-D]) or safe ([-d]). *)
Definition deleter_call (repo_dir : str) (ev : event) : option (str * bool) :=
  match ev with
  | Subprocess [g; c; r; br; flag; b] false =>
      if eqb g (lit "git") && eqb c (lit "-C") && eqb r repo_dir
         && eqb br (lit "branch")
      then if eqb flag (lit "-D") then Some (b, true)
           else if eqb flag (lit "-d") then Some (b, false)
           else None
      else None
  | _ => None
  end.

Fixpoint deleter_calls (repo_dir : str) (evs : trace) : list (str * bool) :=
  match evs with
  | [] => []
  | ev :: more =>
      match deleter_call repo_dir ev with
      | Some call => call :: deleter_calls repo_dir more
      | None => deleter_calls repo_dir more
      end
  end.

(** What [delete_branch] adds to the trace [tr]. *)
Definition delete_events (git : trace -> list str -> CompletedProcess)
    (branch repo_dir : str) (force : bool) (tr : trace) : trace :=
  let cmd := delete_cmd branch repo_dir force in
  [Subprocess cmd false;
   Stdout (if (returncode (git tr cmd) =? 0)%Z then msg_deleted branch
           else msg_could_not_delete branch)].

(** The two commands [main] runs before it lists branches. *)
Definition check_cmd (repo_dir : str) : list str :=
  [Lit.git; Lit.dash_C; repo_dir; Lit.rev_parse; Lit.is_inside_work_tree].
Definition fetch_cmd (repo_dir : str) : list str :=
  [Lit.git; Lit.dash_C; repo_dir; Lit.fetch; Lit.prune].

(** [needle] occurs in [text]. *)
Definition occurs_in (needle text : str) : Prop :=
  exists before after, text = before ++ needle ++ after.

(** The two listing commands of [get_local_branches] and
    [get_remote_branches]. *)
Definition local_cmd (repo_dir : str) : list str :=
  [Lit.git; Lit.dash_C; repo_dir; Lit.branch; Lit.format; Lit.refname_short].
Definition remote_cmd (repo_dir : str) : list str :=
  [Lit.git; Lit.dash_C; repo_dir; Lit.branch; Lit.dash_r; Lit.format;
   Lit.refname_short].

(** The commands run in a trace, oldest first. *)
Fixpoint commands (evs : trace) : list (list str) :=
  match evs with
  | [] => []
  | Subprocess cmd _ :: more => cmd :: commands more
  | _ :: more => commands more
  end.

(** The prompts written in a trace, oldest first. *)
Fixpoint prompts (evs : trace) : list str :=
  match evs with
  | [] => []
  | Prompt text :: more => text :: prompts more
  | _ :: more => prompts more
  end.

(** The test of the loop for a deletion, on one line. *)
Definition answered_yes (line : str) : bool := eqb (lower (strip line)) Lit.y.

(** A line that ends the loop for its branch. *)
Definition decisive (line : str) : Prop := says_yes line \/ says_no line.

(** A name as the tool prints it: not empty and free of white space. *)
Definition ref_name (name : str) : Prop :=
  name <> [] /\ Forall (fun c => isspace c = false) name.

(** A listing as the tool writes it: every name followed by a line feed. *)
Definition printed_listing (names : list str) : str :=
  flat_map (fun name => name ++ [10%N]) names.

(** The names with a line feed between them. *)
Fixpoint join_lines (names : list str) : str :=
  match names with
  | [] => []
  | name :: more =>
      match more with
      | [] => name
      | _ :: _ => name ++ 10%N :: join_lines more
      end
  end.

(** The trace of [main] after each of its four first commands has
    succeeded. *)
Definition after_check (repo_dir : str) (tr : trace) : trace :=
  tr ++ [Subprocess (check_cmd repo_dir) true; Stdout msg_fetching].
Definition after_fetch (repo_dir : str) (tr : trace) : trace :=
  after_check repo_dir tr
    ++ [Subprocess (fetch_cmd repo_dir) false; Stdout msg_fetch_complete].
Definition after_local (repo_dir : str) (tr : trace) : trace :=
  after_fetch repo_dir tr ++ [Subprocess (local_cmd repo_dir) true].
Definition after_remote (repo_dir : str) (tr : trace) : trace :=
  after_local repo_dir tr ++ [Subprocess (remote_cmd repo_dir) true].

(** The working-tree check and the fetch succeed. *)
Definition fetch_succeeds (git : trace -> list str -> CompletedProcess)
    (repo_dir : str) (tr : trace) : Prop :=
  returncode (git tr (check_cmd repo_dir)) = 0%Z /\
  returncode (git (after_check repo_dir tr) (fetch_cmd repo_dir)) = 0%Z.

(** What [main] gets from the two listings, when it comes to them. *)
Definition listed_local (git : trace -> list str -> CompletedProcess)
    (repo_dir : str) (tr : trace) : list str :=
  captured_lines (stdout (git (after_fetch repo_dir tr) (local_cmd repo_dir))).
Definition listed_remote (git : trace -> list str -> CompletedProcess)
    (repo_dir : str) (tr : trace) : list str :=
  normalize_remote
    (captured_lines (stdout (git (after_local repo_dir tr) (remote_cmd repo_dir)))).

(** The four first commands of [main] all succeed. *)
Definition listings_succeed (git : trace -> list str -> CompletedProcess)
    (repo_dir : str) (tr : trace) : Prop :=
  fetch_succeeds git repo_dir tr /\
  returncode (git (after_fetch repo_dir tr) (local_cmd repo_dir)) = 0%Z /\
  returncode (git (after_local repo_dir tr) (remote_cmd repo_dir)) = 0%Z.

(** What the loop writes while the lines say neither yes nor no. *)
Definition reprompts (branch : str) (lines : list str) : trace :=
  flat_map (fun _ => [Prompt (msg_prompt branch); Stdout msg_please_answer])
    lines.

(** ** Tools and inputs of the examples *)

(** A tool that always succeeds and always writes the same text. *)
Definition git_writes (out : str) : trace -> list str -> CompletedProcess :=
  fun _ _ => {| returncode := 0; stdout := out |}.

(** A tool that fails with status 1 on the commands [bad] picks, and
    succeeds silently on the others. *)
Definition git_failing (bad : list str -> bool)
  : trace -> list str -> CompletedProcess :=
  fun _ cmd => {| returncode := if bad cmd then 1 else 0; stdout := [] |}.

(** A tool that always succeeds and writes [remote] for the listing with
    [-r] and [local] otherwise. *)
Definition git_lists (local remote : str)
  : trace -> list str -> CompletedProcess :=
  fun _ cmd => {| returncode := 0;
                  stdout := if contains Lit.dash_r cmd then remote else local |}.

(** The output [" a \n\n b \n"]. *)
Definition out_with_blank_line : str :=
  lit " a " ++ [10; 10]%N ++ lit " b " ++ [10]%N.

(** ** Strings: equality, membership, prefixes *)

Ltac bool_N :=
  repeat (rewrite ?orb_true_iff, ?andb_true_iff, ?orb_false_iff,
            ?andb_false_iff, ?negb_true_iff, ?negb_false_iff,
            ?N.leb_le, ?N.leb_gt, ?N.eqb_eq, ?N.eqb_neq in *).

Lemma eqb_eq (s t : str) : eqb s t = true <-> s = t.
Proof.
  revert t; induction s as [|a s IH]; intros [|b t]; simpl;
    try (split; [discriminate | congruence]); try tauto.
  unfold char_eqb. rewrite andb_true_iff, N.eqb_eq, IH.
  split; [intros [-> ->]; reflexivity | intros H; inversion H; auto].
Qed.

Lemma eqb_refl (s : str) : eqb s s = true.
Proof. apply eqb_eq; reflexivity. Qed.

Lemma eqb_neq (s t : str) : eqb s t = false <-> s <> t.
Proof.
  rewrite <- eqb_eq. destruct (eqb s t); split; congruence.
Qed.

Lemma contains_In (x : str) (xs : list str) : contains x xs = true <-> In x xs.
Proof.
  induction xs as [|y ys IH]; simpl.
  - split; [discriminate | tauto].
  - rewrite orb_true_iff, eqb_eq, IH. split; intros [H|H]; auto.
Qed.

Lemma contains_not_In (x : str) (xs : list str) :
  contains x xs = false <-> ~ In x xs.
Proof.
  rewrite <- contains_In. destruct (contains x xs); split; congruence.
Qed.

Lemma startswith_app (p s : str) :
  startswith p s = true <-> exists r, s = p ++ r.
Proof.
  revert s; induction p as [|a p IH]; intros s; simpl.
  - split; [exists s; reflexivity | reflexivity].
  - destruct s as [|b s].
    + split; [discriminate | intros [r H]; discriminate].
    + unfold char_eqb. rewrite andb_true_iff, N.eqb_eq, IH. split.
      * intros [-> [r ->]]. exists r; reflexivity.
      * intros [r H]. inversion H; subst. split; [reflexivity | exists r; reflexivity].
Qed.

Lemma skipn_prefix (p r : str) : skipn (List.length p) (p ++ r) = r.
Proof. induction p; simpl; auto. Qed.

(** Replacing the leftmost occurrence of a prefix removes the prefix. *)
Lemma replace1_prefix (old new r : str) :
  replace1 old new (old ++ r) = new ++ r.
Proof.
  assert (H : startswith old (old ++ r) = true)
    by (apply startswith_app; exists r; reflexivity).
  destruct (old ++ r) eqn:E; simpl; rewrite H, <- E, skipn_prefix; reflexivity.
Qed.

Lemma islinebreak_isspace (c : char) : islinebreak c = true -> isspace c = true.
Proof. unfold islinebreak, isspace. bool_N. lia. Qed.

(** ** Trimming *)

Lemma lstrip_spec (s : str) :
  exists w, s = w ++ lstrip s /\ all_space w /\ no_space_at_head (lstrip s).
Proof.
  induction s as [|c s (w & E & Hw & Hh)]; simpl.
  - exists []; repeat split; constructor.
  - destruct (isspace c) eqn:Hc.
    + exists (c :: w). simpl. rewrite <- E. repeat split; auto.
      constructor; auto.
    + exists []. repeat split; [constructor | exact Hc].
Qed.

Lemma strip_spec (s : str) :
  exists w1 w2, s = w1 ++ strip s ++ w2 /\ all_space w1 /\ all_space w2 /\
                no_space_at_head (strip s) /\ no_space_at_end (strip s).
Proof.
  unfold strip, rstrip.
  destruct (lstrip_spec s) as (w1 & E1 & H1 & Hh).
  destruct (lstrip_spec (rev (lstrip s))) as (w2 & E2 & H2 & He).
  assert (E : lstrip s = rev (lstrip (rev (lstrip s))) ++ rev w2)
    by (rewrite <- rev_app_distr, <- E2, rev_involutive; reflexivity).
  exists w1, (rev w2). repeat split; auto.
  - rewrite <- E. exact E1.
  - apply Forall_rev; exact H2.
  - rewrite E in Hh.
    destruct (rev (lstrip (rev (lstrip s)))); simpl in *; auto.
  - unfold no_space_at_end. rewrite rev_involutive. exact He.
Qed.

Lemma strip_head (s : str) : no_space_at_head (strip s).
Proof. destruct (strip_spec s) as (? & ? & ? & ? & ? & H & ?); exact H. Qed.

Lemma strip_end (s : str) : no_space_at_end (strip s).
Proof. destruct (strip_spec s) as (? & ? & ? & ? & ? & ? & H); exact H. Qed.

Lemma strip_nil_iff (s : str) : strip s = [] <-> all_space s.
Proof.
  destruct (strip_spec s) as (w1 & w2 & E & H1 & H2 & Hh & _). split.
  - intros H0. rewrite H0 in E. rewrite E. apply Forall_app; auto.
  - intros Hs. destruct (strip s) as [|c u]; [reflexivity|]. simpl in Hh.
    rewrite E in Hs. apply Forall_app in Hs as [_ Hs].
    inversion Hs; subst. congruence.
Qed.

(** ** Splitting into lines *)

Lemma splitlines_no_linebreak (s : str) : Forall no_linebreak (splitlines s).
Proof.
  remember (List.length s) as n eqn:Hn.
  assert (Hle : List.length s <= n) by lia. clear Hn.
  revert s Hle. induction n as [|n IH]; intros [|c t] Hle; simpl in *;
    try constructor; try lia.
  destruct (islinebreak c) eqn:Hc.
  - constructor; [constructor|].
    destruct t as [|c2 t2]; [constructor|].
    destruct ((c =? 13) && (c2 =? 10))%N; apply IH; simpl in *; lia.
  - assert (Ht : Forall no_linebreak (splitlines t)) by (apply IH; lia).
    destruct (splitlines t) as [|l ls].
    + repeat constructor. exact Hc.
    + inversion Ht; subst. constructor; [constructor|]; assumption.
Qed.

Lemma splitlines_nil_iff (s : str) : splitlines s = [] <-> s = [].
Proof.
  split; [|intros ->; reflexivity].
  destruct s as [|c t]; [reflexivity|]. simpl.
  destruct (islinebreak c); [discriminate|].
  destruct (splitlines t); discriminate.
Qed.

(** A text that begins with no line boundary begins its first line. *)
Lemma splitlines_head (c : char) (t : str) :
  islinebreak c = false ->
  exists l ls, splitlines (c :: t) = (c :: l) :: ls.
Proof.
  intros Hc. simpl. rewrite Hc.
  destruct (splitlines t) as [|l ls]; eauto.
Qed.

(** A text that ends with no line boundary ends its last line. *)
Lemma splitlines_last (s : str) (c : char) :
  islinebreak c = false ->
  exists ls l, splitlines (s ++ [c]) = ls ++ [l ++ [c]].
Proof.
  intros Hc.
  remember (List.length s) as n eqn:Hn.
  assert (Hle : List.length s <= n) by lia. clear Hn.
  revert s Hle. induction n as [|n IH]; intros [|a t] Hle; simpl in *; try lia.
  - rewrite Hc. exists [], []. reflexivity.
  - rewrite Hc. exists [], []. reflexivity.
  - destruct (islinebreak a) eqn:Ha.
    + destruct t as [|c2 t2]; cbn [app].
      * assert (Hx : ((a =? 13) && (c =? 10))%N = false).
        { apply andb_false_iff. right. apply N.eqb_neq. intros ->.
          discriminate Hc. }
        rewrite Hx. simpl. rewrite Hc. exists [[]], []. reflexivity.
      * destruct ((a =? 13) && (c2 =? 10))%N.
        -- destruct (IH t2) as (ls & l & E); [simpl in *; lia|].
           rewrite E. exists ([] :: ls), l. reflexivity.
        -- destruct (IH (c2 :: t2)) as (ls & l & E); [simpl in *; lia|].
           cbn [app] in E. rewrite E. exists ([] :: ls), l. reflexivity.
    + destruct (IH t) as (ls & l & E); [lia|]. rewrite E.
      destruct ls as [|l0 ls]; simpl.
      * exists [], (a :: l). reflexivity.
      * exists ((a :: l0) :: ls), l. reflexivity.
Qed.

(** [splitlines] cuts at every line boundary, and once at [\r\n]. *)
Lemma splitlines_cut (l rest : str) (c : char) :
  no_linebreak l -> islinebreak c = true ->
  (forall t, ~ (c = 13%N /\ rest = 10%N :: t)) ->
  splitlines (l ++ c :: rest) = l :: splitlines rest.
Proof.
  intros Hl Hc Hcr. induction Hl as [|a l Ha Hl IH]; simpl.
  - rewrite Hc. f_equal. destruct rest as [|c2 t2]; [reflexivity|].
    destruct ((c =? 13) && (c2 =? 10))%N eqn:E; [|reflexivity].
    bool_N. destruct E as [-> ->]. exfalso. apply (Hcr t2). auto.
  - rewrite Ha, IH. reflexivity.
Qed.

Lemma splitlines_cut_crlf (l rest : str) :
  no_linebreak l ->
  splitlines (l ++ 13%N :: 10%N :: rest) = l :: splitlines rest.
Proof.
  intros Hl. induction Hl as [|a l Ha Hl IH]; simpl.
  - reflexivity.
  - rewrite Ha, IH. reflexivity.
Qed.

Lemma splitlines_one_line (l : str) :
  no_linebreak l -> l <> [] -> splitlines l = [l].
Proof.
  intros Hl. induction Hl as [|a l Ha Hl IH]; [congruence|]. intros _.
  simpl. rewrite Ha. destruct l as [|b l]; [reflexivity|].
  rewrite IH by discriminate. reflexivity.
Qed.

Lemma not_space_not_linebreak (c : char) :
  isspace c = false -> islinebreak c = false.
Proof.
  intros H. destruct (islinebreak c) eqn:E; [|reflexivity].
  apply islinebreak_isspace in E. congruence.
Qed.

Lemma split_lines_first (s first : str) (rest : list str) :
  no_space_at_head s -> splitlines s = first :: rest ->
  first <> [] /\ no_space_at_head first.
Proof.
  destruct s as [|c t]; [discriminate|]. simpl no_space_at_head. intros Hc E.
  destruct (splitlines_head c t (not_space_not_linebreak _ Hc)) as (l & ls & E').
  rewrite E' in E. inversion E; subst. split; [discriminate | exact Hc].
Qed.

Lemma split_lines_last (s last : str) (front : list str) :
  no_space_at_end s -> splitlines s = front ++ [last] ->
  last <> [] /\ no_space_at_end last.
Proof.
  unfold no_space_at_end. intros He E.
  destruct (rev s) as [|c r] eqn:Er.
  - apply (f_equal (@rev _)) in Er. rewrite rev_involutive in Er. subst s.
    destruct front; discriminate.
  - apply (f_equal (@rev _)) in Er. rewrite rev_involutive in Er.
    simpl in Er, He. subst s.
    destruct (splitlines_last (rev r) c (not_space_not_linebreak _ He))
      as (ls & l & E').
    rewrite E' in E. apply app_inj_tail in E as [_ <-]. split.
    + destruct l; discriminate.
    + rewrite rev_app_distr. exact He.
Qed.

(** ** The command runner *)

Section Runner.
Variable git : trace -> list str -> CompletedProcess.

Lemma subprocess_run_ok (cmd : list str) (capture : bool) (tr : trace) :
  returncode (git tr cmd) = 0%Z ->
  subprocess_run git cmd capture tr
  = (Return (git tr cmd), tr ++ [Subprocess cmd capture]).
Proof. intros H. unfold subprocess_run. rewrite H. reflexivity. Qed.

Lemma subprocess_run_fails (cmd : list str) (capture : bool) (tr : trace) :
  returncode (git tr cmd) <> 0%Z ->
  subprocess_run git cmd capture tr
  = (Raise (CalledProcessError (returncode (git tr cmd)) cmd),
     tr ++ [Subprocess cmd capture]).
Proof.
  intros H. unfold subprocess_run.
  destruct (Z.eqb_spec (returncode (git tr cmd)) 0); [contradiction|reflexivity].
Qed.

Lemma run_git_command_ok (args : list str) (repo_dir : str) (capture : bool)
    (tr : trace) :
  let cmd := [Lit.git; Lit.dash_C; repo_dir] ++ args in
  returncode (git tr cmd) = 0%Z ->
  run_git_command git args repo_dir capture tr
  = (Return (if capture then captured_lines (stdout (git tr cmd)) else []),
     tr ++ [Subprocess cmd capture]).
Proof.
  intros cmd H. unfold run_git_command, bind. fold cmd.
  rewrite (subprocess_run_ok cmd capture tr H). destruct capture; reflexivity.
Qed.

Lemma run_git_command_fails (args : list str) (repo_dir : str) (capture : bool)
    (tr : trace) :
  let cmd := [Lit.git; Lit.dash_C; repo_dir] ++ args in
  returncode (git tr cmd) <> 0%Z ->
  run_git_command git args repo_dir capture tr
  = (Raise (CalledProcessError (returncode (git tr cmd)) cmd),
     tr ++ [Subprocess cmd capture]).
Proof.
  intros cmd H. unfold run_git_command, bind. fold cmd.
  rewrite (subprocess_run_fails cmd capture tr H). reflexivity.
Qed.

End Runner.

(** C7, as amended.  When the tool exits with status 0, the command runner
    in capturing mode returns the lines of the output trimmed as a whole
    and then split at line boundaries.  No returned line holds a line
    boundary, nothing is returned exactly when the output is white space
    only, the first returned line is not empty and begins with no white
    space, and the last one is not empty and ends with none.  The lines in
    between are returned as they are, empty or with white space around
    them. *)
Theorem run_git_command_captured_lines
    (git : trace -> list str -> CompletedProcess)
    (args : list str) (repo_dir : str) (tr : trace) :
  let cmd := [lit "git"; lit "-C"; repo_dir] ++ args in
  let out := stdout (git tr cmd) in
  returncode (git tr cmd) = 0%Z ->
  exists lines,
    run_git_command git args repo_dir true tr
    = (Return lines, tr ++ [Subprocess cmd true]) /\
    lines = splitlines (strip out) /\
    Forall no_linebreak lines /\
    (lines = [] <-> all_space out) /\
    (forall first rest, lines = first :: rest ->
       first <> [] /\ no_space_at_head first) /\
    (forall front last, lines = front ++ [last] ->
       last <> [] /\ no_space_at_end last).
Proof.
  intros cmd out Hok. exists (captured_lines out). unfold captured_lines.
  split; [exact (run_git_command_ok git args repo_dir true tr Hok)|].
  split; [reflexivity|].
  split; [apply splitlines_no_linebreak|].
  split; [rewrite splitlines_nil_iff; apply strip_nil_iff|].
  split.
  - intros first rest E. exact (split_lines_first _ _ _ (strip_head out) E).
  - intros front last E. exact (split_lines_last _ _ _ (strip_end out) E).
Qed.

Lemma run_git_command_captured_lines_witness :
  returncode (git_writes out_with_blank_line [] [lit "git"; lit "-C"; lit "/repo"; lit "status"]) = 0%Z /\
  exists lines,
    run_git_command (git_writes out_with_blank_line) [lit "status"] (lit "/repo") true []
    = (Return lines,
       [] ++ [Subprocess ([lit "git"; lit "-C"; lit "/repo"] ++ [lit "status"]) true]) /\
    lines = splitlines (strip out_with_blank_line) /\
    Forall no_linebreak lines /\
    (lines = [] <-> all_space out_with_blank_line) /\
    (forall first rest, lines = first :: rest ->
       first <> [] /\ no_space_at_head first) /\
    (forall front last, lines = front ++ [last] ->
       last <> [] /\ no_space_at_end last).
Proof.
  split; [reflexivity|].
  apply (run_git_command_captured_lines (git_writes out_with_blank_line)
           [lit "status"] (lit "/repo") []).
  reflexivity.
Defined.

(** C7, as stated, fails: on the output [" a \n\n b \n"] the runner
    returns three lines, of which the second is empty and the two others
    are not trimmed. *)
Lemma captured_lines_not_trimmed_nonempty :
  captured_lines out_with_blank_line = [lit "a "; []; lit " b"] /\
  ~ (forall out line, In line (captured_lines out) ->
       line <> [] /\ strip line = line).
Proof.
  split; [reflexivity|].
  intros H. destruct (H out_with_blank_line []) as [Hne _].
  - right; left; reflexivity.
  - apply Hne; reflexivity.
Qed.

(** ** The candidates *)

Lemma candidate_test (remote_branches : list str) (b : str) :
  negb (contains b remote_branches) && negb (contains b [Lit.main; Lit.master])
  = true <-> candidate remote_branches b.
Proof.
  unfold candidate. rewrite andb_true_iff, !negb_true_iff, !contains_not_In.
  change (lit "main") with Lit.main. change (lit "master") with Lit.master.
  simpl. intuition congruence.
Qed.

Lemma kept_in_order_unique (P : str -> Prop) (l k1 k2 : list str) :
  kept_in_order P l k1 -> kept_in_order P l k2 -> k1 = k2.
Proof.
  intros H1; revert k2.
  induction H1; intros k2 H2; inversion H2; subst;
    try reflexivity; try contradiction; auto.
  f_equal; auto.
Qed.

Lemma kept_in_order_In (P : str -> Prop) (l k : list str) :
  kept_in_order P l k -> forall b, In b k <-> In b l /\ P b.
Proof.
  induction 1; intros x; simpl.
  - tauto.
  - rewrite IHkept_in_order. split.
    + intros [<-|[? ?]]; auto.
    + intros [[<-|?] ?]; auto.
  - rewrite IHkept_in_order. split.
    + intros [? ?]; auto.
    + intros [[<-|?] ?]; [contradiction|auto].
Qed.

Lemma only_local_kept (local_branches remote_branches : list str) :
  kept_in_order (candidate remote_branches) local_branches
    (only_local local_branches remote_branches).
Proof.
  unfold only_local.
  induction local_branches as [|b l IH]; cbn [filter]; [constructor|].
  destruct (negb (contains b remote_branches)
            && negb (contains b [Lit.main; Lit.master])) eqn:E.
  - apply kept_keep; [apply candidate_test; exact E | exact IH].
  - apply kept_drop; [|exact IH].
    rewrite <- candidate_test, E. discriminate.
Qed.

(** C1.  The candidate list is the local list without the branches that
    are in the remote list and without ["main"] and ["master"], in the
    order of the local list; ["main"] and ["master"] are never in it. *)
Theorem only_local_spec (local_branches remote_branches : list str) :
  let candidates := only_local local_branches remote_branches in
  kept_in_order (candidate remote_branches) local_branches candidates /\
  (forall k, kept_in_order (candidate remote_branches) local_branches k ->
     k = candidates) /\
  (forall b, In b candidates <->
     In b local_branches /\ ~ In b remote_branches /\
     b <> lit "main" /\ b <> lit "master") /\
  ~ In (lit "main") candidates /\ ~ In (lit "master") candidates.
Proof.
  intros candidates. pose proof (only_local_kept local_branches remote_branches) as K.
  fold candidates in K.
  pose proof (kept_in_order_In _ _ _ K) as HIn.
  split; [exact K|]. split; [intros k Hk; exact (kept_in_order_unique _ _ _ _ Hk K)|].
  split; [exact HIn|].
  split; intros H; apply HIn in H; unfold candidate in H; tauto.
Qed.

Lemma only_local_spec_witness :
  only_local [lit "main"; lit "a"; lit "b"; lit "a"; lit "master"] [lit "b"]
  = [lit "a"; lit "a"].
Proof.
  symmetry.
  apply (proj1 (proj2 (only_local_spec
           [lit "main"; lit "a"; lit "b"; lit "a"; lit "master"] [lit "b"]))).
  assert (Ha : candidate [lit "b"] (lit "a")).
  { repeat split; [intros [H|[]]; discriminate H | discriminate | discriminate]. }
  apply kept_drop; [intros (_ & H & _); apply H; reflexivity|].
  apply kept_keep; [exact Ha|].
  apply kept_drop; [intros (H & _); apply H; left; reflexivity|].
  apply kept_keep; [exact Ha|].
  apply kept_drop; [intros (_ & _ & H); apply H; reflexivity|].
  apply kept_nil.
Defined.

(** ** The remote listing *)

Lemma strip_prefix_spec (p s r : str) : strip_prefix p s = Some r <-> s = p ++ r.
Proof.
  revert s; induction p as [|a p IH]; intros s; simpl.
  - split; [intros H; inversion H; reflexivity | intros ->; reflexivity].
  - destruct s as [|b s]; [split; discriminate|].
    unfold char_eqb. destruct (N.eqb_spec a b) as [->|Hab].
    + rewrite IH. split; [intros ->; reflexivity | intros H; inversion H; reflexivity].
    + split; [discriminate | intros H; inversion H; congruence].
Qed.

Lemma strip_prefix_startswith (p s : str) :
  startswith p s = true <-> exists r, strip_prefix p s = Some r.
Proof.
  rewrite startswith_app. split; intros [r H]; exists r; apply strip_prefix_spec; exact H.
Qed.

Lemma normalize_remote_refines (raw : list str) :
  normalize_remote raw = list_remote_branches_spec raw.
Proof.
  unfold normalize_remote. change (lit "origin/") with Lit.origin_slash.
  induction raw as [|entry more IH]; [reflexivity|].
  cbn [filter list_remote_branches_spec].
  change (lit "origin/") with Lit.origin_slash.
  destruct (strip_prefix Lit.origin_slash (strip entry)) as [name|] eqn:E.
  - assert (Hs : startswith Lit.origin_slash (strip entry) = true)
      by (apply strip_prefix_startswith; eauto).
    rewrite Hs. cbn [map]. rewrite IH. f_equal.
    apply strip_prefix_spec in E. rewrite E. apply replace1_prefix.
  - destruct (startswith Lit.origin_slash (strip entry)) eqn:Hs; [|exact IH].
    apply strip_prefix_startswith in Hs as [r Hr]. congruence.
Qed.

Lemma list_remote_branches_spec_In (raw : list str) (name : str) :
  In name (list_remote_branches_spec raw) <->
  exists entry, In entry raw /\ strip entry = lit "origin/" ++ name.
Proof.
  induction raw as [|entry more IH]; cbn [list_remote_branches_spec In].
  - split; [tauto | intros (? & [] & _)].
  - destruct (strip_prefix (lit "origin/") (strip entry)) as [n|] eqn:E.
    + apply strip_prefix_spec in E. cbn [In]. rewrite IH. split.
      * intros [<-|(e & He & Hn)]; [exists entry; auto | exists e; auto].
      * intros (e & [<-|He] & Hn).
        -- left. rewrite E in Hn. exact (app_inv_head _ _ _ Hn).
        -- right. exists e; auto.
    + rewrite IH. split.
      * intros (e & He & Hn). exists e; auto.
      * intros (e & [<-|He] & Hn); [|exists e; auto].
        apply strip_prefix_spec in Hn. congruence.
Qed.

(** C3.  The remote listing keeps, in their order, the entries whose
    trimmed form begins with ["origin/"], each as its trimmed form without
    that qualifier, and drops the others; the raw listing of the test
    gives ["main"] and ["feature/x"]. *)
Theorem normalize_remote_spec (raw : list str) :
  normalize_remote raw = list_remote_branches_spec raw /\
  (forall name, In name (normalize_remote raw) <->
     exists entry, In entry raw /\ strip entry = lit "origin/" ++ name) /\
  normalize_remote [lit "origin/main"; lit " origin/feature/x ";
                    lit "upstream/dev"; lit "random/branch"]
  = [lit "main"; lit "feature/x"].
Proof.
  split; [apply normalize_remote_refines|]. split; [|reflexivity].
  intros name. rewrite normalize_remote_refines.
  apply list_remote_branches_spec_In.
Qed.

Lemma normalize_remote_spec_witness :
  In (lit "feature/x")
    (normalize_remote [lit "upstream/dev"; lit " origin/feature/x "]).
Proof.
  apply (proj1 (proj2 (normalize_remote_spec
           [lit "upstream/dev"; lit " origin/feature/x "]))).
  exists (lit " origin/feature/x "). split; [right; left|]; reflexivity.
Defined.

(** C8, as stated, fails: the entry ["origin/"] gives the empty name, and
    the entry ["origin/origin/x"] a name that begins with ["origin/"]. *)
Lemma normalize_remote_empty_or_qualified :
  normalize_remote [lit "origin/"; lit "origin/origin/x"] = [[]; lit "origin/x"] /\
  ~ (forall raw name, In name (normalize_remote raw) ->
       name <> [] /\ startswith (lit "origin/") name = false).
Proof.
  split; [reflexivity|].
  intros H. destruct (H [lit "origin/"] []) as [Hne _].
  - left; reflexivity.
  - apply Hne; reflexivity.
Qed.

(** C8, as amended.  Every name of the remote listing is what follows the
    leading ["origin/"] of a trimmed raw entry, and ends with no white
    space; it is empty exactly when the trimmed entry is ["origin/"], and
    begins with ["origin/"] exactly when the trimmed entry begins with
    ["origin/origin/"]. *)
Theorem normalize_remote_names (raw : list str) (name : str) :
  In name (normalize_remote raw) ->
  exists entry,
    In entry raw /\ strip entry = lit "origin/" ++ name /\
    no_space_at_end name /\
    (name = [] <-> strip entry = lit "origin/") /\
    (startswith (lit "origin/") name = true <->
     startswith (lit "origin/origin/") (strip entry) = true).
Proof.
  intros H. rewrite normalize_remote_refines in H.
  apply list_remote_branches_spec_In in H as (entry & He & E).
  exists entry. split; [exact He|]. split; [exact E|]. split; [|split].
  - pose proof (strip_end entry) as Hend. unfold no_space_at_end in *.
    rewrite E, rev_app_distr in Hend.
    destruct (rev name); simpl in *; auto.
  - rewrite E. split; [intros ->; reflexivity|].
    intros H0. change (lit "origin/") with (lit "origin/" ++ []) in H0 at 2.
    exact (app_inv_head _ _ _ H0).
  - rewrite !startswith_app, E.
    change (lit "origin/origin/") with (lit "origin/" ++ lit "origin/").
    split; intros [r Hr]; exists r.
    + rewrite Hr, app_assoc. reflexivity.
    + rewrite <- app_assoc in Hr. exact (app_inv_head _ _ _ Hr).
Qed.

Lemma normalize_remote_names_witness :
  In (lit "origin/x") (normalize_remote [lit " origin/origin/x "]) /\
  exists entry,
    In entry [lit " origin/origin/x "] /\
    strip entry = lit "origin/" ++ lit "origin/x" /\
    no_space_at_end (lit "origin/x") /\
    (lit "origin/x" = [] <-> strip entry = lit "origin/") /\
    (startswith (lit "origin/") (lit "origin/x") = true <->
     startswith (lit "origin/origin/") (strip entry) = true).
Proof.
  split; [left; reflexivity|].
  apply (normalize_remote_names [lit " origin/origin/x "] (lit "origin/x")).
  left; reflexivity.
Defined.

(** ** The answers *)

Lemma says_cases (line : str) : says_yes line \/ says_no line \/ says_other line.
Proof.
  unfold says_other, says_yes, says_no.
  destruct (str_eq_dec (lower (strip line)) (lit "y")) as [->|Hy]; [auto|].
  destruct (str_eq_dec (lower (strip line)) (lit "n")) as [->|Hn]; [auto|].
  destruct (str_eq_dec (lower (strip line)) []) as [->|He]; [auto|].
  right; right. tauto.
Qed.

Lemma says_yes_not_no (line : str) : says_yes line -> ~ says_no line.
Proof. unfold says_yes, says_no. intros -> [H|H]; discriminate. Qed.

Lemma yes_comes_first_nil : ~ yes_comes_first [].
Proof. intros (before & line & after & E & _). destruct before; discriminate. Qed.

Lemma yes_comes_first_yes (line : str) (rest : list str) :
  says_yes line -> yes_comes_first (line :: rest).
Proof. intros H. exists [], line, rest. repeat split; [exact H | constructor]. Qed.

Lemma yes_comes_first_no (line : str) (rest : list str) :
  says_no line -> ~ yes_comes_first (line :: rest).
Proof.
  intros Hn (before & l & after & E & Hy & Hb).
  destruct before as [|x before]; inversion E; subst.
  - exact (says_yes_not_no _ Hy Hn).
  - inversion Hb; subst. contradiction.
Qed.

Lemma yes_comes_first_other (line : str) (rest : list str) :
  says_other line -> (yes_comes_first (line :: rest) <-> yes_comes_first rest).
Proof.
  intros [Hly Hln]. split.
  - intros (before & l & after & E & Hy & Hb).
    destruct before as [|x before]; inversion E; subst.
    + contradiction.
    + inversion Hb; subst. exists before, l, after. auto.
  - intros (before & l & after & E & Hy & Hb). subst.
    exists (line :: before), l, after. repeat split; auto.
Qed.

(** The same, told by the first line that says yes or no. *)
Lemma yes_comes_first_decisive (lines : list str) :
  yes_comes_first lines <->
  exists before line after,
    lines = before ++ line :: after /\ Forall says_other before /\ says_yes line.
Proof.
  induction lines as [|x rest IH].
  - split; [intros H; destruct (yes_comes_first_nil H)|].
    intros (before & ? & ? & E & _). destruct before; discriminate.
  - destruct (says_cases x) as [Hy|[Hn|Ho]].
    + split; [|intros _; exact (yes_comes_first_yes x rest Hy)].
      intros _. exists [], x, rest. repeat split; [constructor | exact Hy].
    + split; [intros H; destruct (yes_comes_first_no x rest Hn H)|].
      intros (before & l & after & E & Hb & Hy).
      destruct before as [|z before]; inversion E; subst.
      * destruct (says_yes_not_no _ Hy Hn).
      * inversion Hb; subst. unfold says_other in *. tauto.
    + rewrite (yes_comes_first_other x rest Ho), IH. split.
      * intros (before & l & after & -> & Hb & Hy).
        exists (x :: before), l, after. repeat split; auto.
      * intros (before & l & after & E & Hb & Hy).
        destruct before as [|z before]; inversion E; subst.
        -- unfold says_other in Ho. tauto.
        -- inversion Hb; subst. exists before, l, after. auto.
Qed.

(** ** Deleter invocations in a trace *)

Lemma deleter_call_delete_cmd (branch repo_dir : str) (force : bool) :
  deleter_call repo_dir (Subprocess (delete_cmd branch repo_dir force) false)
  = Some (branch, force).
Proof.
  unfold deleter_call, delete_cmd.
  change (lit "git") with Lit.git. change (lit "-C") with Lit.dash_C.
  change (lit "branch") with Lit.branch.
  rewrite !eqb_refl. destruct force; reflexivity.
Qed.

Lemma deleter_calls_app (repo_dir : str) (evs evs' : trace) :
  deleter_calls repo_dir (evs ++ evs')
  = deleter_calls repo_dir evs ++ deleter_calls repo_dir evs'.
Proof.
  induction evs as [|ev evs IH]; [reflexivity|]. cbn [app deleter_calls].
  destruct (deleter_call repo_dir ev); rewrite IH; reflexivity.
Qed.

Lemma deleter_calls_delete_events git (branch repo_dir : str) (force : bool)
    (tr : trace) :
  deleter_calls repo_dir (delete_events git branch repo_dir force tr)
  = [(branch, force)].
Proof.
  unfold delete_events. cbn [deleter_calls].
  rewrite deleter_call_delete_cmd. reflexivity.
Qed.

(** ** The deleter and the confirm loop *)

Section Loop.
Variable git : trace -> list str -> CompletedProcess.

Lemma delete_branch_run (branch repo_dir : str) (force : bool) (tr : trace) :
  delete_branch git branch repo_dir force tr
  = (Return tt, tr ++ delete_events git branch repo_dir force tr).
Proof.
  unfold delete_branch, delete_events, try_except, bind, subprocess_run,
    print, emit.
  destruct (returncode (git tr (delete_cmd branch repo_dir force)) =? 0)%Z;
    rewrite <- app_assoc; reflexivity.
Qed.

(** The loop, one turn at a time, with [input] as the source has it. *)
Lemma confirm_loop_input (branch repo_dir : str) (safe : bool)
    (lines : list str) (tr : trace) :
  confirm_loop git branch repo_dir safe lines tr
  = (p <- input (msg_prompt branch) lines ;;
     let choice := lower (strip (fst p)) in
     if eqb choice Lit.y then
       delete_branch git branch repo_dir (negb safe) ;; ret (snd p)
     else if contains choice [Lit.n; Lit.empty] then
       print (msg_keeping branch) ;; ret (snd p)
     else
       print msg_please_answer ;;
       confirm_loop git branch repo_dir safe (snd p)) tr.
Proof. destruct lines; reflexivity. Qed.

Lemma confirm_loop_eof (branch repo_dir : str) (safe : bool) (tr : trace) :
  confirm_loop git branch repo_dir safe [] tr
  = (Raise EOFError, tr ++ [Prompt (msg_prompt branch)]).
Proof. reflexivity. Qed.

Lemma confirm_loop_yes (branch repo_dir : str) (safe : bool)
    (line : str) (rest : list str) (tr : trace) :
  says_yes line ->
  confirm_loop git branch repo_dir safe (line :: rest) tr
  = (Return rest,
     tr ++ Prompt (msg_prompt branch)
        :: delete_events git branch repo_dir (negb safe)
             (tr ++ [Prompt (msg_prompt branch)])).
Proof.
  unfold says_yes. intros H. cbn [confirm_loop]. unfold bind at 1, emit at 1.
  rewrite H. change (eqb (lit "y") Lit.y) with true. cbv iota.
  unfold bind. rewrite delete_branch_run. unfold ret.
  rewrite <- app_assoc. reflexivity.
Qed.

Lemma confirm_loop_no (branch repo_dir : str) (safe : bool)
    (line : str) (rest : list str) (tr : trace) :
  says_no line ->
  confirm_loop git branch repo_dir safe (line :: rest) tr
  = (Return rest, tr ++ [Prompt (msg_prompt branch); Stdout (msg_keeping branch)]).
Proof.
  unfold says_no. intros H. cbn [confirm_loop]. unfold bind at 1, emit at 1.
  destruct H as [H|H]; rewrite H; cbn; unfold bind, print, emit, ret;
    rewrite <- app_assoc; reflexivity.
Qed.

Lemma confirm_loop_other (branch repo_dir : str) (safe : bool)
    (line : str) (rest : list str) (tr : trace) :
  says_other line ->
  confirm_loop git branch repo_dir safe (line :: rest) tr
  = confirm_loop git branch repo_dir safe rest
      (tr ++ [Prompt (msg_prompt branch); Stdout msg_please_answer]).
Proof.
  unfold says_other, says_yes, says_no. intros [Hy Hn].
  cbn [confirm_loop]. unfold bind at 1, emit at 1.
  assert (E1 : eqb (lower (strip line)) Lit.y = false)
    by (apply eqb_neq; exact Hy).
  assert (E2 : contains (lower (strip line)) [Lit.n; Lit.empty] = false).
  { apply contains_not_In. simpl. intros [H|[H|[]]]; apply Hn; auto. }
  rewrite E1, E2. unfold bind at 1, print at 1, emit at 1.
  rewrite <- app_assoc. reflexivity.
Qed.

(** What one run of the loop adds to the trace, and the deleter
    invocations in it. *)
Lemma confirm_loop_calls (branch repo_dir : str) (safe : bool)
    (lines : list str) (tr : trace) :
  exists evs,
    snd (confirm_loop git branch repo_dir safe lines tr) = tr ++ evs /\
    1 <= prompts_for branch evs /\
    (yes_comes_first lines /\
       deleter_calls repo_dir evs = [(branch, negb safe)]
     \/ ~ yes_comes_first lines /\ deleter_calls repo_dir evs = []).
Proof.
  revert tr. induction lines as [|line rest IH]; intros tr.
  - exists [Prompt (msg_prompt branch)]. rewrite confirm_loop_eof.
    split; [reflexivity|]. split.
    + unfold prompts_for. rewrite count_occ_cons_eq; [lia | reflexivity].
    + right. split; [exact yes_comes_first_nil | reflexivity].
  - destruct (says_cases line) as [Hy|[Hn|Ho]].
    + rewrite (confirm_loop_yes _ _ _ line rest tr Hy).
      eexists. split; [reflexivity|]. split.
      * unfold prompts_for. rewrite count_occ_cons_eq; [lia | reflexivity].
      * left. split; [exact (yes_comes_first_yes _ rest Hy)|].
        cbn [deleter_calls deleter_call].
        apply deleter_calls_delete_events.
    + rewrite (confirm_loop_no _ _ _ line rest tr Hn).
      eexists. split; [reflexivity|]. split.
      * unfold prompts_for. rewrite count_occ_cons_eq; [lia | reflexivity].
      * right. split; [exact (yes_comes_first_no _ rest Hn) | reflexivity].
    + rewrite (confirm_loop_other _ _ _ line rest tr Ho).
      destruct (IH (tr ++ [Prompt (msg_prompt branch); Stdout msg_please_answer]))
        as (evs & E & Hp & Hc).
      exists ([Prompt (msg_prompt branch); Stdout msg_please_answer] ++ evs).
      split; [rewrite E, app_assoc; reflexivity|]. split.
      * unfold prompts_for in *. rewrite count_occ_app. lia.
      * rewrite deleter_calls_app. cbn [deleter_calls deleter_call app].
        rewrite (yes_comes_first_other _ rest Ho). exact Hc.
Qed.

End Loop.

Section Candidates.
Variable git : trace -> list str -> CompletedProcess.

Lemma for_each_branch_calls (branches : list str) (repo_dir : str) (safe : bool)
    (lines : list str) (tr : trace) :
  exists evs,
    snd (for_each_branch git branches repo_dir safe lines tr) = tr ++ evs /\
    Forall (fun call => In (fst call) branches /\ snd call = negb safe)
      (deleter_calls repo_dir evs).
Proof.
  revert lines tr. induction branches as [|b more IH]; intros lines tr.
  - exists []. split; [symmetry; apply app_nil_r | constructor].
  - cbn [for_each_branch]. unfold bind.
    destruct (confirm_loop_calls git b repo_dir safe lines tr)
      as (evs1 & E1 & _ & Hc).
    assert (H1 : Forall (fun call => In (fst call) (b :: more) /\ snd call = negb safe)
                   (deleter_calls repo_dir evs1)).
    { destruct Hc as [[_ ->]|[_ ->]]; repeat constructor. }
    destruct (confirm_loop git b repo_dir safe lines tr) as [[rest|e] tr1];
      simpl in E1; subst tr1.
    + destruct (IH rest (tr ++ evs1)) as (evs2 & E2 & H2).
      exists (evs1 ++ evs2). split; [rewrite E2, app_assoc; reflexivity|].
      rewrite deleter_calls_app. apply Forall_app. split; [exact H1|].
      eapply Forall_impl; [|exact H2]. intros call [Hin Hs]. split; [right|]; auto.
    + exists evs1. split; [reflexivity | exact H1].
Qed.

Lemma for_each_branch_prompts (branches : list str) (repo_dir : str)
    (safe : bool) (lines rest : list str) (tr tr' : trace) :
  for_each_branch git branches repo_dir safe lines tr = (Return rest, tr') ->
  exists evs,
    tr' = tr ++ evs /\
    forall b, count_occ str_eq_dec branches b <= prompts_for b evs.
Proof.
  revert lines tr. induction branches as [|b more IH]; intros lines tr.
  - cbn. intros H; inversion H; subst. exists [].
    split; [symmetry; apply app_nil_r | intros; apply Nat.le_0_l].
  - cbn [for_each_branch]. unfold bind.
    destruct (confirm_loop_calls git b repo_dir safe lines tr)
      as (evs1 & E1 & Hp & _).
    destruct (confirm_loop git b repo_dir safe lines tr) as [[rest1|e] tr1];
      simpl in E1; subst tr1; [|discriminate].
    intros H. apply IH in H as (evs2 & -> & H2).
    exists (evs1 ++ evs2). split; [rewrite app_assoc; reflexivity|].
    intros x. unfold prompts_for in *. rewrite count_occ_app.
    specialize (H2 x). cbn [count_occ].
    destruct (str_eq_dec b x) as [->|_]; lia.
Qed.

End Candidates.

Lemma only_local_count (local_branches remote_branches : list str) (b : str) :
  candidate remote_branches b ->
  count_occ str_eq_dec (only_local local_branches remote_branches) b
  = count_occ str_eq_dec local_branches b.
Proof.
  intros Hb. apply candidate_test in Hb. unfold only_local.
  induction local_branches as [|x l IH]; [reflexivity|]. cbn [filter count_occ].
  destruct (str_eq_dec x b) as [->|Hx].
  - rewrite Hb. cbn [count_occ]. destruct (str_eq_dec b b); congruence.
  - destruct (negb (contains x remote_branches)
              && negb (contains x [Lit.main; Lit.master])); [|exact IH].
    cbn [count_occ]. destruct (str_eq_dec x b); congruence.
Qed.

(** C2.  For one candidate of the loop and any lines on standard input:
    the deleter is invoked at most once, and exactly once if and only if
    a line whose trimmed lowercased form is ["y"] is read before any line
    whose form is ["n"] or empty; a line of the latter kind keeps the
    branch with the keeping message and no invocation of the deleter; any
    other line gives the guidance line and a new prompt for the same
    branch, and a ["y"] after it deletes that branch once. *)
Theorem confirm_loop_protocol
    (git : trace -> list str -> CompletedProcess)
    (branch repo_dir : str) (safe : bool) :
  (forall lines tr, exists evs,
     snd (confirm_loop git branch repo_dir safe lines tr) = tr ++ evs /\
     (List.length (deleter_calls repo_dir evs) = 1 <-> yes_comes_first lines) /\
     (deleter_calls repo_dir evs = [(branch, negb safe)] \/
      deleter_calls repo_dir evs = [])) /\
  (forall line rest tr, says_no line ->
     confirm_loop git branch repo_dir safe (line :: rest) tr
     = (Return rest,
        tr ++ [Prompt (msg_prompt branch); Stdout (msg_keeping branch)])) /\
  (forall line rest tr, says_other line ->
     confirm_loop git branch repo_dir safe (line :: rest) tr
     = confirm_loop git branch repo_dir safe rest
         (tr ++ [Prompt (msg_prompt branch); Stdout msg_please_answer])) /\
  (forall line line' rest tr, says_other line -> says_yes line' ->
     let asked := tr ++ [Prompt (msg_prompt branch); Stdout msg_please_answer;
                         Prompt (msg_prompt branch)] in
     confirm_loop git branch repo_dir safe (line :: line' :: rest) tr
     = (Return rest,
        asked ++ delete_events git branch repo_dir (negb safe) asked)).
Proof.
  split; [|split; [|split]].
  - intros lines tr.
    destruct (confirm_loop_calls git branch repo_dir safe lines tr)
      as (evs & E & _ & Hc).
    exists evs. split; [exact E|].
    destruct Hc as [[Hy ->]|[Hn ->]]; cbn [List.length].
    + split; [tauto | left; reflexivity].
    + split; [split; [discriminate | contradiction] | right; reflexivity].
  - intros line rest tr. apply confirm_loop_no.
  - intros line rest tr. apply confirm_loop_other.
  - intros line line' rest tr Ho Hy asked.
    rewrite (confirm_loop_other git branch repo_dir safe line _ tr Ho).
    rewrite (confirm_loop_yes git branch repo_dir safe line' rest _ Hy).
    unfold asked. rewrite <- !app_assoc. reflexivity.
Qed.

Lemma confirm_loop_protocol_witness :
  says_other (lit "maybe") /\ says_yes (lit " Y ") /\
  confirm_loop (git_writes []) (lit "f1") (lit "/repo") true
    [lit "maybe"; lit " Y "; lit "n"] []
  = (Return [lit "n"],
     [Prompt (msg_prompt (lit "f1")); Stdout msg_please_answer;
      Prompt (msg_prompt (lit "f1"));
      Subprocess [lit "git"; lit "-C"; lit "/repo"; lit "branch"; lit "-d";
                  lit "f1"] false;
      Stdout (msg_deleted (lit "f1"))]).
Proof.
  assert (Ho : says_other (lit "maybe")).
  { split; intros H; vm_compute in H; [discriminate H|].
    destruct H as [H|H]; discriminate H. }
  assert (Hy : says_yes (lit " Y ")) by reflexivity.
  split; [exact Ho|]. split; [exact Hy|].
  destruct (confirm_loop_protocol (git_writes []) (lit "f1") (lit "/repo") true)
    as (_ & _ & _ & H).
  exact (H (lit "maybe") (lit " Y ") [lit "n"] [] Ho Hy).
Defined.

(** C4.  The deleter runs [git branch -D] when it is called with force and
    [git branch -d] when it is not; a candidate confirmed with ["y"] is
    deleted with force exactly when the safe flag is absent; and every
    invocation of the deleter in a run is for one of the candidates and in
    that one mode. *)
Theorem deletion_mode
    (git : trace -> list str -> CompletedProcess)
    (repo_dir : str) (safe : bool) :
  (forall branch force tr, exists message,
     delete_branch git branch repo_dir force tr
     = (Return tt,
        tr ++ [Subprocess [lit "git"; lit "-C"; repo_dir; lit "branch";
                           if force then lit "-D" else lit "-d"; branch] false;
               Stdout message])) /\
  (forall branch line rest tr, says_yes line -> exists evs,
     confirm_loop git branch repo_dir safe (line :: rest) tr
     = (Return rest, tr ++ evs) /\
     deleter_calls repo_dir evs = [(branch, if safe then false else true)]) /\
  (forall branches lines tr, exists evs,
     snd (for_each_branch git branches repo_dir safe lines tr) = tr ++ evs /\
     Forall (fun call => In (fst call) branches /\
                         snd call = if safe then false else true)
       (deleter_calls repo_dir evs)).
Proof.
  split; [|split].
  - intros branch force tr. rewrite delete_branch_run. unfold delete_events.
    eexists. destruct force; reflexivity.
  - intros branch line rest tr Hy.
    rewrite (confirm_loop_yes git branch repo_dir safe line rest tr Hy).
    eexists. split; [reflexivity|]. cbn [deleter_calls deleter_call].
    rewrite deleter_calls_delete_events. destruct safe; reflexivity.
  - intros branches lines tr.
    destruct (for_each_branch_calls git branches repo_dir safe lines tr)
      as (evs & E & H).
    exists evs. split; [exact E|]. destruct safe; exact H.
Qed.

Lemma deletion_mode_witness :
  says_yes (lit "y") /\
  (exists evs,
     confirm_loop (git_writes []) (lit "feature/x") (lit "/repo") false
       [lit "y"] []
     = (Return [], [] ++ evs) /\
     deleter_calls (lit "/repo") evs = [(lit "feature/x", true)]) /\
  (exists evs,
     confirm_loop (git_writes []) (lit "feature/x") (lit "/repo") true
       [lit "y"] []
     = (Return [], [] ++ evs) /\
     deleter_calls (lit "/repo") evs = [(lit "feature/x", false)]).
Proof.
  split; [reflexivity|]. split.
  - destruct (deletion_mode (git_writes []) (lit "/repo") false) as (_ & H & _).
    apply (H (lit "feature/x") (lit "y") [] []). reflexivity.
  - destruct (deletion_mode (git_writes []) (lit "/repo") true) as (_ & H & _).
    apply (H (lit "feature/x") (lit "y") [] []). reflexivity.
Defined.

(** C6.  When the deletion command exits with a status other than 0,
    [delete_branch] writes the warning that names the branch and returns;
    in the loop, the run then goes on with the next candidate and the
    lines that are left. *)
Theorem delete_branch_failure_recovers
    (git : trace -> list str -> CompletedProcess)
    (branch repo_dir : str) (force : bool) (tr : trace) :
  let cmd := delete_cmd branch repo_dir force in
  returncode (git tr cmd) <> 0%Z ->
  delete_branch git branch repo_dir force tr
  = (Return tt,
     tr ++ [Subprocess cmd false; Stdout (msg_could_not_delete branch)]) /\
  occurs_in branch (msg_could_not_delete branch) /\
  (forall more line rest asked,
     says_yes line -> tr = asked ++ [Prompt (msg_prompt branch)] ->
     for_each_branch git (branch :: more) repo_dir (negb force)
       (line :: rest) asked
     = for_each_branch git more repo_dir (negb force) rest
         (tr ++ [Subprocess cmd false; Stdout (msg_could_not_delete branch)])).
Proof.
  intros cmd Hfail.
  assert (E : delete_events git branch repo_dir force tr
              = [Subprocess cmd false; Stdout (msg_could_not_delete branch)]).
  { unfold delete_events. fold cmd.
    destruct (Z.eqb_spec (returncode (git tr cmd)) 0); [contradiction|reflexivity]. }
  split; [rewrite delete_branch_run, E; reflexivity|]. split.
  - exists (Lit.cross_mark ++ lit " Could not delete branch '"),
      (lit "'. Maybe it's the current branch?").
    unfold msg_could_not_delete. rewrite <- !app_assoc. reflexivity.
  - intros more line rest asked Hy ->.
    cbn [for_each_branch]. unfold bind at 1.
    rewrite (confirm_loop_yes git branch repo_dir (negb force) line rest asked Hy).
    rewrite negb_involutive, E, <- app_assoc. reflexivity.
Qed.

Lemma delete_branch_failure_recovers_witness :
  returncode
    (git_failing (fun _ => true) [Prompt (msg_prompt (lit "a"))]
       (delete_cmd (lit "a") (lit "/repo") true)) <> 0%Z /\
  for_each_branch (git_failing (fun _ => true)) [lit "a"; lit "b"] (lit "/repo")
    false [lit "y"; lit "n"] []
  = (Return [],
     [Prompt (msg_prompt (lit "a"));
      Subprocess (delete_cmd (lit "a") (lit "/repo") true) false;
      Stdout (msg_could_not_delete (lit "a"));
      Prompt (msg_prompt (lit "b"));
      Stdout (msg_keeping (lit "b"))]).
Proof.
  assert (Hfail : returncode
            (git_failing (fun _ => true) [Prompt (msg_prompt (lit "a"))]
               (delete_cmd (lit "a") (lit "/repo") true)) <> 0%Z)
    by discriminate.
  split; [exact Hfail|].
  destruct (delete_branch_failure_recovers (git_failing (fun _ => true))
              (lit "a") (lit "/repo") true [Prompt (msg_prompt (lit "a"))] Hfail)
    as (_ & _ & H).
  etransitivity;
    [exact (H [lit "b"] (lit "y") [lit "n"] [] eq_refl eq_refl) | reflexivity].
Defined.

(** C10.  A candidate occurs in the candidate list as often as in the
    local listing, and a run of the loop that comes to its end has asked
    about it at least that often: nothing is deduplicated. *)
Theorem candidates_keep_multiplicity
    (git : trace -> list str -> CompletedProcess)
    (local_branches remote_branches : list str) (b : str) :
  candidate remote_branches b ->
  count_occ str_eq_dec (only_local local_branches remote_branches) b
  = count_occ str_eq_dec local_branches b /\
  (forall repo_dir safe lines rest tr tr',
     for_each_branch git (only_local local_branches remote_branches)
       repo_dir safe lines tr = (Return rest, tr') ->
     exists evs, tr' = tr ++ evs /\
       count_occ str_eq_dec local_branches b <= prompts_for b evs).
Proof.
  intros Hb. split; [apply only_local_count; exact Hb|].
  intros repo_dir safe lines rest tr tr' H.
  apply for_each_branch_prompts in H as (evs & -> & Hp).
  exists evs. split; [reflexivity|].
  rewrite <- (only_local_count local_branches remote_branches b Hb). apply Hp.
Qed.

Lemma candidates_keep_multiplicity_witness :
  candidate [lit "main"] (lit "a") /\
  only_local [lit "a"; lit "main"; lit "a"] [lit "main"] = [lit "a"; lit "a"] /\
  exists evs,
    [Prompt (msg_prompt (lit "a")); Stdout (msg_keeping (lit "a"));
     Prompt (msg_prompt (lit "a")); Stdout (msg_keeping (lit "a"))]
    = [] ++ evs /\
    count_occ str_eq_dec [lit "a"; lit "main"; lit "a"] (lit "a")
    <= prompts_for (lit "a") evs.
Proof.
  assert (Hc : candidate [lit "main"] (lit "a")).
  { repeat split; [intros [H|[]]; discriminate H | discriminate | discriminate]. }
  split; [exact Hc|]. split; [reflexivity|].
  destruct (candidates_keep_multiplicity (git_writes [])
              [lit "a"; lit "main"; lit "a"] [lit "main"] (lit "a") Hc)
    as [_ H].
  apply (H (lit "/repo") false [lit "n"; lit ""] [] []). reflexivity.
Defined.

(** ** The orchestrator *)

Section Orchestrator.
Variable git : trace -> list str -> CompletedProcess.
Variables (repo_dir : str) (safe : bool) (lines : list str).

Lemma main_validation_fails (tr : trace) :
  returncode (git tr (check_cmd repo_dir)) <> 0%Z ->
  main git repo_dir safe lines tr
  = (Raise (SystemExit 1),
     tr ++ [Subprocess (check_cmd repo_dir) true; Stdout (msg_not_a_repository repo_dir)]).
Proof.
  intros Hfail. unfold main. unfold bind at 1, try_except. unfold bind at 1.
  rewrite (run_git_command_fails git
             [Lit.rev_parse; Lit.is_inside_work_tree] repo_dir true tr Hfail).
  unfold bind, print, emit, sys_exit, raise. rewrite <- app_assoc. reflexivity.
Qed.

Lemma main_validated (tr : trace) :
  returncode (git tr (check_cmd repo_dir)) = 0%Z ->
  main git repo_dir safe lines tr
  = (run_git_command git [Lit.fetch; Lit.prune] repo_dir false ;;
     print msg_fetch_complete ;;
     local_branches <- get_local_branches git repo_dir ;;
     remote_branches <- get_remote_branches git repo_dir ;;
     match only_local local_branches remote_branches with
     | [] => print msg_no_local_only
     | _ :: _ =>
         for_each_branch git (only_local local_branches remote_branches)
           repo_dir safe lines ;; ret tt
     end)
      (tr ++ [Subprocess (check_cmd repo_dir) true; Stdout msg_fetching]).
Proof.
  intros Hok. unfold main. unfold bind at 1, try_except. unfold bind at 1.
  rewrite (run_git_command_ok git
             [Lit.rev_parse; Lit.is_inside_work_tree] repo_dir true tr Hok).
  unfold ret at 1. unfold bind at 1, print at 1, emit at 1.
  rewrite <- app_assoc. reflexivity.
Qed.

Lemma main_fetch_fails (tr : trace) :
  let tr1 := tr ++ [Subprocess (check_cmd repo_dir) true; Stdout msg_fetching] in
  returncode (git tr (check_cmd repo_dir)) = 0%Z ->
  returncode (git tr1 (fetch_cmd repo_dir)) <> 0%Z ->
  main git repo_dir safe lines tr
  = (Raise (CalledProcessError (returncode (git tr1 (fetch_cmd repo_dir))) (fetch_cmd repo_dir)),
     tr1 ++ [Subprocess (fetch_cmd repo_dir) false]).
Proof.
  intros tr1 Hok Hfail. rewrite (main_validated tr Hok). fold tr1.
  unfold bind at 1.
  rewrite (run_git_command_fails git [Lit.fetch; Lit.prune] repo_dir false tr1
             Hfail).
  reflexivity.
Qed.

(** The run up to the candidates, when the four commands succeed. *)
Lemma main_enumerates (tr : trace) :
  let local_cmd := [Lit.git; Lit.dash_C; repo_dir; Lit.branch; Lit.format;
                    Lit.refname_short] in
  let remote_cmd := [Lit.git; Lit.dash_C; repo_dir; Lit.branch; Lit.dash_r;
                     Lit.format; Lit.refname_short] in
  let tr1 := tr ++ [Subprocess (check_cmd repo_dir) true; Stdout msg_fetching] in
  let tr2 := tr1 ++ [Subprocess (fetch_cmd repo_dir) false;
                     Stdout msg_fetch_complete] in
  let tr3 := tr2 ++ [Subprocess local_cmd true] in
  let tr4 := tr3 ++ [Subprocess remote_cmd true] in
  let candidates :=
    only_local (captured_lines (stdout (git tr2 local_cmd)))
      (normalize_remote (captured_lines (stdout (git tr3 remote_cmd)))) in
  returncode (git tr (check_cmd repo_dir)) = 0%Z ->
  returncode (git tr1 (fetch_cmd repo_dir)) = 0%Z ->
  returncode (git tr2 local_cmd) = 0%Z ->
  returncode (git tr3 remote_cmd) = 0%Z ->
  main git repo_dir safe lines tr
  = match candidates with
    | [] => (Return tt, tr4 ++ [Stdout msg_no_local_only])
    | _ :: _ =>
        (for_each_branch git candidates repo_dir safe lines ;; ret tt) tr4
    end.
Proof.
  intros local_cmd remote_cmd tr1 tr2 tr3 tr4 candidates H0 H1 H2 H3.
  rewrite (main_validated tr H0). fold tr1.
  unfold bind at 1.
  rewrite (run_git_command_ok git [Lit.fetch; Lit.prune] repo_dir false tr1 H1).
  unfold bind at 1, print at 1, emit at 1. rewrite <- app_assoc.
  change (tr1 ++ [Subprocess ([Lit.git; Lit.dash_C; repo_dir]
                               ++ [Lit.fetch; Lit.prune]) false]
              ++ [Stdout msg_fetch_complete]) with tr2.
  unfold bind at 1, get_local_branches.
  rewrite (run_git_command_ok git [Lit.branch; Lit.format; Lit.refname_short]
             repo_dir true tr2 H2).
  change (tr2 ++ [Subprocess ([Lit.git; Lit.dash_C; repo_dir]
                               ++ [Lit.branch; Lit.format; Lit.refname_short])
                    true]) with tr3.
  unfold bind at 1, get_remote_branches. unfold bind at 1.
  rewrite (run_git_command_ok git
             [Lit.branch; Lit.dash_r; Lit.format; Lit.refname_short]
             repo_dir true tr3 H3).
  unfold ret at 1.
  change ([Lit.git; Lit.dash_C; repo_dir]
          ++ [Lit.branch; Lit.format; Lit.refname_short]) with local_cmd.
  change ([Lit.git; Lit.dash_C; repo_dir]
          ++ [Lit.branch; Lit.dash_r; Lit.format; Lit.refname_short])
    with remote_cmd.
  fold tr4. fold candidates.
  destruct candidates; reflexivity.
Qed.

End Orchestrator.

(** C5.  When the working-tree check exits with a status other than 0,
    [main] writes the message that holds the path and exits with status
    1; the check is the only command it has run. *)
Theorem main_invalid_repository
    (git : trace -> list str -> CompletedProcess)
    (repo_dir : str) (safe : bool) (lines : list str) (tr : trace) :
  let check := [lit "git"; lit "-C"; repo_dir; lit "rev-parse";
                lit "--is-inside-work-tree"] in
  returncode (git tr check) <> 0%Z ->
  main git repo_dir safe lines tr
  = (Raise (SystemExit 1),
     tr ++ [Subprocess check true; Stdout (msg_not_a_repository repo_dir)]) /\
  occurs_in repo_dir (msg_not_a_repository repo_dir).
Proof.
  intros check Hfail. split.
  - exact (main_validation_fails git repo_dir safe lines tr Hfail).
  - exists (Lit.cross_mark ++ lit " "), (lit " is not a valid git repository.").
    unfold msg_not_a_repository. rewrite <- !app_assoc. reflexivity.
Qed.

Lemma main_invalid_repository_witness :
  returncode
    (git_failing (fun _ => true) []
       [lit "git"; lit "-C"; lit "C:/not-a-repo"; lit "rev-parse";
        lit "--is-inside-work-tree"]) <> 0%Z /\
  main (git_failing (fun _ => true)) (lit "C:/not-a-repo") false [lit "y"] []
  = (Raise (SystemExit 1),
     [Subprocess [lit "git"; lit "-C"; lit "C:/not-a-repo"; lit "rev-parse";
                  lit "--is-inside-work-tree"] true;
      Stdout (msg_not_a_repository (lit "C:/not-a-repo"))]).
Proof.
  assert (Hfail : returncode
            (git_failing (fun _ => true) []
               [lit "git"; lit "-C"; lit "C:/not-a-repo"; lit "rev-parse";
                lit "--is-inside-work-tree"]) <> 0%Z) by discriminate.
  split; [exact Hfail|].
  exact (proj1 (main_invalid_repository (git_failing (fun _ => true))
                  (lit "C:/not-a-repo") false [lit "y"] [] Hfail)).
Defined.

(** C9.  When the working-tree check succeeds and the fetch with pruning
    exits with a status other than 0, the error leaves [main] unhandled:
    the run ends with it right after the fetch, before any listing,
    prompt or deletion. *)
Theorem main_fetch_failure_propagates
    (git : trace -> list str -> CompletedProcess)
    (repo_dir : str) (safe : bool) (lines : list str) (tr : trace) :
  let check := [lit "git"; lit "-C"; repo_dir; lit "rev-parse";
                lit "--is-inside-work-tree"] in
  let fetch := [lit "git"; lit "-C"; repo_dir; lit "fetch"; lit "--prune"] in
  let fetching := tr ++ [Subprocess check true; Stdout msg_fetching] in
  returncode (git tr check) = 0%Z ->
  returncode (git fetching fetch) <> 0%Z ->
  main git repo_dir safe lines tr
  = (Raise (CalledProcessError (returncode (git fetching fetch)) fetch),
     fetching ++ [Subprocess fetch false]).
Proof.
  intros check fetch fetching Hok Hfail.
  exact (main_fetch_fails git repo_dir safe lines tr Hok Hfail).
Qed.

Lemma main_fetch_failure_propagates_witness :
  main (git_failing (fun cmd => contains (lit "fetch") cmd)) (lit "/repo")
    false [lit "y"] []
  = (Raise (CalledProcessError 1
              [lit "git"; lit "-C"; lit "/repo"; lit "fetch"; lit "--prune"]),
     [Subprocess [lit "git"; lit "-C"; lit "/repo"; lit "rev-parse";
                  lit "--is-inside-work-tree"] true;
      Stdout msg_fetching;
      Subprocess [lit "git"; lit "-C"; lit "/repo"; lit "fetch"; lit "--prune"]
        false]).
Proof.
  apply (main_fetch_failure_propagates
           (git_failing (fun cmd => contains (lit "fetch") cmd)) (lit "/repo")
           false [lit "y"] []).
  - reflexivity.
  - discriminate.
Defined.

(** ** Trimming, again: white space around a text does not count *)

Lemma lstrip_fixed (s : str) : no_space_at_head s -> lstrip s = s.
Proof. destruct s as [|c s]; simpl; auto. intros ->; reflexivity. Qed.

Lemma lstrip_all_space (w s : str) : all_space w -> lstrip (w ++ s) = lstrip s.
Proof. induction 1 as [|c w Hc _ IH]; simpl; [|rewrite Hc]; auto. Qed.

Lemma lstrip_app (s t : str) :
  lstrip (s ++ t) = match lstrip s with [] => lstrip t | _ :: _ => lstrip s ++ t end.
Proof.
  induction s as [|c s IH]; simpl; [reflexivity|].
  destruct (isspace c); [exact IH | reflexivity].
Qed.

Lemma rstrip_all_space (s w : str) : all_space w -> rstrip (s ++ w) = rstrip s.
Proof.
  intros H. unfold rstrip. rewrite rev_app_distr, lstrip_all_space; auto.
  apply Forall_rev; exact H.
Qed.

Lemma strip_pad (w1 s w2 : str) :
  all_space w1 -> all_space w2 -> strip (w1 ++ s ++ w2) = strip s.
Proof.
  intros H1 H2. unfold strip. rewrite (lstrip_all_space w1 _ H1), lstrip_app.
  destruct (lstrip s) as [|c l] eqn:E.
  - rewrite <- (app_nil_r w2), (lstrip_all_space w2 [] H2). reflexivity.
  - apply rstrip_all_space; exact H2.
Qed.

Lemma strip_trimmed (s : str) :
  no_space_at_head s -> no_space_at_end s -> strip s = s.
Proof.
  intros Hh He. unfold strip, rstrip. rewrite (lstrip_fixed s Hh).
  rewrite (lstrip_fixed (rev s) He). apply rev_involutive.
Qed.

Lemma strip_idempotent (s : str) : strip (strip s) = strip s.
Proof. apply strip_trimmed; [apply strip_head | apply strip_end]. Qed.

Lemma ref_name_trimmed (name : str) :
  ref_name name -> no_space_at_head name /\ no_space_at_end name.
Proof.
  intros [_ H]. unfold no_space_at_end. split.
  - destruct H; simpl; auto.
  - apply Forall_rev in H. destruct H; simpl; auto.
Qed.

Lemma ref_name_no_linebreak (name : str) : ref_name name -> no_linebreak name.
Proof.
  intros [_ H]. unfold no_linebreak. eapply Forall_impl; [|exact H].
  intros c. apply not_space_not_linebreak.
Qed.

(** X1.  White space around the whole output of the tool does not change
    what the command runner returns, and white space around an entry of the
    remote listing does not change the remote names; trimming the entries
    beforehand changes nothing. *)
Theorem surrounding_space_is_dropped (w1 w2 : str) :
  all_space w1 -> all_space w2 ->
  (forall out, captured_lines (w1 ++ out ++ w2) = captured_lines out) /\
  (forall raw, normalize_remote (map (fun entry => w1 ++ entry ++ w2) raw)
               = normalize_remote raw) /\
  (forall raw, normalize_remote (map strip raw) = normalize_remote raw).
Proof.
  intros H1 H2. split; [|split].
  - intros out. unfold captured_lines. rewrite strip_pad; auto.
  - intros raw. rewrite !normalize_remote_refines.
    induction raw as [|entry more IH]; [reflexivity|].
    cbn [map list_remote_branches_spec]. rewrite (strip_pad _ entry _ H1 H2), IH.
    reflexivity.
  - intros raw. rewrite !normalize_remote_refines.
    induction raw as [|entry more IH]; [reflexivity|].
    cbn [map list_remote_branches_spec]. rewrite strip_idempotent, IH.
    reflexivity.
Qed.

Lemma surrounding_space_is_dropped_witness :
  normalize_remote [lit "  origin/a "; lit "  up/b "; lit "  origin/c "]
  = normalize_remote [lit "origin/a"; lit "up/b"; lit "origin/c"].
Proof.
  assert (H1 : all_space (lit "  ")) by (repeat constructor).
  assert (H2 : all_space (lit " ")) by (repeat constructor).
  destruct (surrounding_space_is_dropped _ _ H1 H2) as (_ & H & _).
  exact (H [lit "origin/a"; lit "up/b"; lit "origin/c"]).
Defined.

(** ** The accepted answers *)





(** ** Listings as the tool prints them *)

Lemma join_lines_cons (name n : str) (more : list str) :
  join_lines (name :: n :: more) = name ++ [10%N] ++ join_lines (n :: more).
Proof. reflexivity. Qed.

Lemma printed_listing_join (name : str) (more : list str) :
  printed_listing (name :: more) = join_lines (name :: more) ++ [10%N].
Proof.
  revert name. induction more as [|n more IH]; intros name.
  - cbn. rewrite app_nil_r. reflexivity.
  - change (printed_listing (name :: n :: more))
      with ((name ++ [10%N]) ++ printed_listing (n :: more)).
    rewrite IH, join_lines_cons, <- !app_assoc. reflexivity.
Qed.

Lemma join_lines_not_nil (name : str) (more : list str) :
  name <> [] -> join_lines (name :: more) <> [].
Proof.
  intros Hne. destruct more as [|n more]; [exact Hne|].
  rewrite join_lines_cons. destruct name; [congruence | discriminate].
Qed.

Lemma no_space_at_end_app (s t : str) :
  t <> [] -> no_space_at_end t -> no_space_at_end (s ++ t).
Proof.
  unfold no_space_at_end. intros Hne H. rewrite rev_app_distr.
  destruct (rev t) as [|c r] eqn:E; [|exact H].
  apply (f_equal (@rev _)) in E. rewrite rev_involutive in E. contradiction.
Qed.

Lemma join_lines_trimmed (names : list str) :
  Forall ref_name names ->
  no_space_at_head (join_lines names) /\ no_space_at_end (join_lines names).
Proof.
  induction 1 as [|name more Hn Hm [IHh IHe]]; [split; exact I|].
  destruct (ref_name_trimmed name Hn) as [Hh He].
  destruct Hn as [Hne _].
  destruct more as [|n more]; [split; assumption|].
  rewrite join_lines_cons.
  inversion Hm as [|? ? [Hn0 _] _]; subst.
  pose proof (join_lines_not_nil n more Hn0) as Hj.
  remember (join_lines (n :: more)) as J eqn:EJ. clear EJ. split.
  - destruct name; [congruence | exact Hh].
  - rewrite app_assoc. apply no_space_at_end_app; assumption.
Qed.

Lemma splitlines_join_lines (names : list str) :
  Forall ref_name names -> splitlines (join_lines names) = names.
Proof.
  induction 1 as [|name more Hn Hm IH]; [reflexivity|].
  destruct more as [|n more].
  - cbn [join_lines]. apply splitlines_one_line.
    + apply ref_name_no_linebreak; exact Hn.
    + destruct Hn; assumption.
  - rewrite join_lines_cons. cbn [app]. rewrite splitlines_cut.
    + rewrite IH. reflexivity.
    + apply ref_name_no_linebreak; exact Hn.
    + reflexivity.
    + intros t [H _]. discriminate H.
Qed.

Lemma captured_lines_printed (names : list str) :
  Forall ref_name names -> captured_lines (printed_listing names) = names.
Proof.
  intros H. destruct names as [|name more]; [reflexivity|].
  rewrite printed_listing_join. unfold captured_lines.
  assert (Hw : all_space [10%N]) by (repeat constructor).
  pose proof (strip_pad [] (join_lines (name :: more)) [10%N]
                (Forall_nil _) Hw) as E.
  cbn [app] in E. rewrite E.
  destruct (join_lines_trimmed _ H) as [Hh He].
  rewrite (strip_trimmed _ Hh He). apply splitlines_join_lines; exact H.
Qed.

(** X3.  When the tool prints names that are not empty and hold no white
    space, one to a line, the command runner returns these names, as they
    are and in their order, whether or not the last line is ended. *)
Theorem captured_lines_round_trip (names : list str) :
  Forall ref_name names ->
  captured_lines (printed_listing names) = names /\
  captured_lines (join_lines names) = names.
Proof.
  intros H. split; [apply captured_lines_printed; exact H|].
  unfold captured_lines. destruct (join_lines_trimmed _ H) as [Hh He].
  rewrite (strip_trimmed _ Hh He). apply splitlines_join_lines; exact H.
Qed.

Lemma captured_lines_round_trip_witness :
  captured_lines (printed_listing [lit "main"; lit "feature/x"])
  = [lit "main"; lit "feature/x"] /\
  captured_lines (join_lines [lit "main"; lit "feature/x"])
  = [lit "main"; lit "feature/x"].
Proof.
  apply (captured_lines_round_trip [lit "main"; lit "feature/x"]).
  repeat constructor; discriminate.
Defined.

(** ** Candidates and the raw remote listing *)

Lemma only_local_In (local_branches remote_branches : list str) (b : str) :
  In b (only_local local_branches remote_branches) <->
  In b local_branches /\ candidate remote_branches b.
Proof.
  apply (kept_in_order_In _ _ _ (only_local_kept local_branches remote_branches)).
Qed.

Lemma normalize_remote_In (raw : list str) (name : str) :
  In name (normalize_remote raw) <->
  exists entry, In entry raw /\ strip entry = lit "origin/" ++ name.
Proof. rewrite normalize_remote_refines. apply list_remote_branches_spec_In. Qed.

(** X4.  A local branch is a candidate exactly when it is neither ["main"]
    nor ["master"] and no entry of the raw remote listing is, once trimmed,
    ["origin/"] followed by its name; an entry under another remote does
    not protect it. *)
Theorem candidates_of_raw_listing (local_branches raw : list str) (b : str) :
  In b (only_local local_branches (normalize_remote raw)) <->
  In b local_branches /\ b <> lit "main" /\ b <> lit "master" /\
  ~ (exists entry, In entry raw /\ strip entry = lit "origin/" ++ b).
Proof.
  rewrite only_local_In. unfold candidate. rewrite normalize_remote_In. tauto.
Qed.

(** X5.  There is no candidate exactly when every local branch is in the
    remote list or is ["main"] or ["master"]. *)
Theorem only_local_nil_iff (local_branches remote_branches : list str) :
  only_local local_branches remote_branches = [] <->
  forall b, In b local_branches ->
    In b remote_branches \/ b = lit "main" \/ b = lit "master".
Proof.
  split.
  - intros E b Hb.
    destruct (in_dec str_eq_dec b remote_branches) as [|Hr]; [auto|].
    destruct (str_eq_dec b (lit "main")) as [|Hm]; [auto|].
    destruct (str_eq_dec b (lit "master")) as [|Hs]; [auto|].
    exfalso.
    assert (H : In b (only_local local_branches remote_branches))
      by (apply only_local_In; unfold candidate; auto).
    rewrite E in H. exact H.
  - intros H.
    destruct (only_local local_branches remote_branches) as [|x l] eqn:E;
      [reflexivity|].
    assert (Hx : In x (only_local local_branches remote_branches))
      by (rewrite E; left; reflexivity).
    apply only_local_In in Hx as [Hl (Hr & Hm & Hs)].
    destruct (H x Hl) as [?|[?|?]]; contradiction.
Qed.

(** ** The loop and standard input *)

Lemma prompts_app (evs evs' : trace) :
  prompts (evs ++ evs') = prompts evs ++ prompts evs'.
Proof.
  induction evs as [|[| |] evs IH]; cbn [app prompts]; rewrite ?IH; reflexivity.
Qed.

Lemma commands_app (evs evs' : trace) :
  commands (evs ++ evs') = commands evs ++ commands evs'.
Proof.
  induction evs as [|[| |] evs IH]; cbn [app commands]; rewrite ?IH; reflexivity.
Qed.

Section Reading.
Variable git : trace -> list str -> CompletedProcess.
Variables (repo_dir : str) (safe : bool).

Lemma confirm_loop_reads (branch : str) (lines : list str) (tr : trace) :
  exists evs,
    snd (confirm_loop git branch repo_dir safe lines tr) = tr ++ evs /\
    match fst (confirm_loop git branch repo_dir safe lines tr) with
    | Return rest =>
        exists consumed,
          lines = consumed ++ rest /\ consumed <> [] /\
          List.length (prompts evs) = List.length consumed
    | Raise e => e = EOFError /\ List.length (prompts evs) = S (List.length lines)
    end.
Proof.
  revert tr. induction lines as [|line rest IH]; intros tr.
  - rewrite confirm_loop_eof. eexists. split; [reflexivity|]. split; reflexivity.
  - destruct (says_cases line) as [Hy|[Hn|Ho]].
    + rewrite (confirm_loop_yes git branch repo_dir safe line rest tr Hy).
      eexists. split; [reflexivity|]. exists [line].
      split; [reflexivity|]. split; [discriminate | reflexivity].
    + rewrite (confirm_loop_no git branch repo_dir safe line rest tr Hn).
      eexists. split; [reflexivity|]. exists [line].
      split; [reflexivity|]. split; [discriminate | reflexivity].
    + rewrite (confirm_loop_other git branch repo_dir safe line rest tr Ho).
      destruct (IH (tr ++ [Prompt (msg_prompt branch); Stdout msg_please_answer]))
        as (evs & E & H).
      exists ([Prompt (msg_prompt branch); Stdout msg_please_answer] ++ evs).
      split; [rewrite E, app_assoc; reflexivity|].
      destruct (fst (confirm_loop git branch repo_dir safe rest _)) as [rest'|e].
      * destruct H as (consumed & -> & _ & Hl). exists (line :: consumed).
        split; [reflexivity|]. split; [discriminate|].
        cbn. rewrite Hl. reflexivity.
      * destruct H as [-> Hl]. split; [reflexivity|]. cbn. rewrite Hl. reflexivity.
Qed.

(** X6.  The loop reads one line for every prompt it writes.  When it comes
    to its end, the lines it leaves are what follows the lines it has
    read, it has read at least one line for every branch, and it has
    written as many prompts as it has read lines.  It raises nothing but
    [EOFError], and then it has read every line and written one prompt
    more. *)
Theorem one_line_per_prompt (branches lines : list str) (tr : trace) :
  exists evs,
    snd (for_each_branch git branches repo_dir safe lines tr) = tr ++ evs /\
    match fst (for_each_branch git branches repo_dir safe lines tr) with
    | Return rest =>
        exists consumed,
          lines = consumed ++ rest /\
          List.length branches <= List.length consumed /\
          List.length (prompts evs) = List.length consumed
    | Raise e => e = EOFError /\ List.length (prompts evs) = S (List.length lines)
    end.
Proof.
  revert lines tr. induction branches as [|b more IH]; intros lines tr.
  - exists []. split; [symmetry; apply app_nil_r|]. exists [].
    split; [reflexivity|]. split; [apply Nat.le_refl | reflexivity].
  - cbn [for_each_branch]. unfold bind.
    destruct (confirm_loop_reads b lines tr) as (evs1 & E1 & H1).
    destruct (confirm_loop git b repo_dir safe lines tr) as [[rest1|e] tr1];
      cbn [fst snd] in *; subst tr1.
    + destruct H1 as (c1 & -> & Hne & Hl1).
      destruct (IH rest1 (tr ++ evs1)) as (evs2 & E2 & H2).
      exists (evs1 ++ evs2). split; [rewrite E2, app_assoc; reflexivity|].
      destruct (fst (for_each_branch git more repo_dir safe rest1 (tr ++ evs1)))
        as [rest|e].
      * destruct H2 as (c2 & -> & Hb & Hl2). exists (c1 ++ c2).
        split; [rewrite app_assoc; reflexivity|].
        rewrite prompts_app, !length_app, Hl1, Hl2.
        destruct c1; [congruence|]. cbn [List.length]. split; lia.
      * destruct H2 as [-> Hl2]. split; [reflexivity|].
        rewrite prompts_app, !length_app, Hl1, Hl2. lia.
    + exists evs1. split; [reflexivity | exact H1].
Qed.

Lemma confirm_loop_all_other (branch : str) (lines : list str) (tr : trace) :
  Forall says_other lines ->
  confirm_loop git branch repo_dir safe lines tr
  = (Raise EOFError,
     tr ++ reprompts branch lines ++ [Prompt (msg_prompt branch)]).
Proof.
  intros H. revert tr. induction H as [|line rest Ho _ IH]; intros tr.
  - apply confirm_loop_eof.
  - rewrite (confirm_loop_other git branch repo_dir safe line rest tr Ho), IH.
    unfold reprompts. cbn [flat_map]. rewrite <- !app_assoc. reflexivity.
Qed.

End Reading.

(** X7.  When standard input ends before a line says yes or no (and so
    when it is empty), the loop raises [EOFError] at the first branch: it
    has asked about that branch once more than there are lines, given the
    guidance once for every line, run no command, and not come to the
    branches after it. *)
Theorem end_of_input_raises
    (git : trace -> list str -> CompletedProcess)
    (branch : str) (more : list str) (repo_dir : str) (safe : bool)
    (lines : list str) (tr : trace) :
  Forall says_other lines ->
  for_each_branch git (branch :: more) repo_dir safe lines tr
  = (Raise EOFError,
     tr ++ reprompts branch lines ++ [Prompt (msg_prompt branch)]) /\
  commands (reprompts branch lines ++ [Prompt (msg_prompt branch)]) = [].
Proof.
  intros H. split.
  - cbn [for_each_branch]. unfold bind.
    rewrite (confirm_loop_all_other git repo_dir safe branch lines tr H).
    reflexivity.
  - rewrite commands_app. unfold reprompts.
    induction lines as [|line rest IH]; [reflexivity|].
    inversion H; subst. cbn [flat_map app commands]. apply IH. assumption.
Qed.

Lemma end_of_input_raises_witness :
  Forall says_other [lit "maybe"] /\
  for_each_branch (git_writes []) [lit "a"; lit "b"] (lit "/repo") false
    [lit "maybe"] []
  = (Raise EOFError,
     [Prompt (msg_prompt (lit "a")); Stdout msg_please_answer;
      Prompt (msg_prompt (lit "a"))]).
Proof.
  assert (H : Forall says_other [lit "maybe"]).
  { repeat constructor; intros H; vm_compute in H;
      [discriminate H | destruct H as [H|H]; discriminate H]. }
  split; [exact H|].
  exact (proj1 (end_of_input_raises (git_writes []) (lit "a") [lit "b"]
                  (lit "/repo") false [lit "maybe"] [] H)).
Defined.

(** ** What the loop runs *)

Lemma answered_yes_true (line : str) : says_yes line -> answered_yes line = true.
Proof. intros H. apply eqb_eq. exact H. Qed.

Lemma answered_yes_false (line : str) : ~ says_yes line -> answered_yes line = false.
Proof. intros H. apply eqb_neq. exact H. Qed.

Section Running.
Variable git : trace -> list str -> CompletedProcess.
Variables (repo_dir : str) (safe : bool).

Lemma commands_delete_events (branch : str) (force : bool) (tr : trace) :
  commands (delete_events git branch repo_dir force tr)
  = [delete_cmd branch repo_dir force].
Proof. reflexivity. Qed.

Lemma prompts_delete_events (branch : str) (force : bool) (tr : trace) :
  prompts (delete_events git branch repo_dir force tr) = [].
Proof. reflexivity. Qed.

(** One turn of the [for] loop on a line that says yes or no. *)
Lemma confirm_loop_decisive (branch line : str) (rest : list str) (tr : trace) :
  decisive line ->
  exists evs,
    confirm_loop git branch repo_dir safe (line :: rest) tr
    = (Return rest, tr ++ evs) /\
    prompts evs = [msg_prompt branch] /\
    commands evs = if answered_yes line
                   then [delete_cmd branch repo_dir (negb safe)] else [].
Proof.
  intros [Hy|Hn].
  - rewrite (confirm_loop_yes git branch repo_dir safe line rest tr Hy).
    eexists. split; [reflexivity|]. rewrite (answered_yes_true line Hy).
    split; reflexivity.
  - rewrite (confirm_loop_no git branch repo_dir safe line rest tr Hn).
    eexists. split; [reflexivity|].
    rewrite (answered_yes_false line (fun Hy => says_yes_not_no line Hy Hn)).
    split; reflexivity.
Qed.

(** X8.  When every branch gets one line that says yes or no, the loop
    comes to its end with the lines after these, it has asked about every
    branch once, in the order of the list, and the commands it has run are
    the deletions of the branches whose line says yes, in that order and
    in the mode of the run. *)
Theorem decisive_answers (branches answers rest : list str) (tr : trace) :
  List.length answers = List.length branches ->
  Forall decisive answers ->
  exists evs,
    for_each_branch git branches repo_dir safe (answers ++ rest) tr
    = (Return rest, tr ++ evs) /\
    prompts evs = map msg_prompt branches /\
    commands evs
    = map (fun p => delete_cmd (fst p) repo_dir (negb safe))
        (filter (fun p => answered_yes (snd p)) (combine branches answers)).
Proof.
  revert answers tr. induction branches as [|b more IH]; intros answers tr Hl Hd.
  - destruct answers; [|discriminate]. exists [].
    cbn. rewrite app_nil_r. auto.
  - destruct answers as [|a answers]; [discriminate|].
    inversion Hd as [|? ? Ha Hd']; subst.
    destruct (confirm_loop_decisive b a (answers ++ rest) tr Ha)
      as (evs1 & E1 & P1 & C1).
    injection Hl as Hl.
    destruct (IH answers (tr ++ evs1) Hl Hd') as (evs2 & E2 & P2 & C2).
    exists (evs1 ++ evs2). cbn [for_each_branch app]. unfold bind.
    rewrite E1, E2, app_assoc. split; [reflexivity|].
    rewrite prompts_app, commands_app, P1, P2, C1, C2.
    split; [reflexivity|]. cbn [combine filter snd fst].
    destruct (answered_yes a); reflexivity.
Qed.



End Running.

Lemma decisive_answers_witness :
  exists evs,
    for_each_branch (git_writes []) [lit "a"; lit "b"; lit "c"] (lit "/repo")
      true ([lit "y"; lit ""; lit " Y "] ++ [lit "left"]) []
    = (Return [lit "left"], [] ++ evs) /\
    prompts evs = map msg_prompt [lit "a"; lit "b"; lit "c"] /\
    commands evs
    = [delete_cmd (lit "a") (lit "/repo") false;
       delete_cmd (lit "c") (lit "/repo") false].
Proof.
  apply (decisive_answers (git_writes []) (lit "/repo") true
           [lit "a"; lit "b"; lit "c"] [lit "y"; lit ""; lit " Y "]
           [lit "left"] []).
  - reflexivity.
  - apply Forall_cons; [left; reflexivity|].
    apply Forall_cons; [right; right; reflexivity|].
    apply Forall_cons; [left; reflexivity|].
    apply Forall_nil.
Defined.

(** ** The orchestrator, command by command *)

Section Steps.
Variable git : trace -> list str -> CompletedProcess.
Variables (repo_dir : str) (safe : bool) (lines : list str).

Lemma main_fetched (tr : trace) :
  fetch_succeeds git repo_dir tr ->
  main git repo_dir safe lines tr
  = (local_branches <- get_local_branches git repo_dir ;;
     remote_branches <- get_remote_branches git repo_dir ;;
     match only_local local_branches remote_branches with
     | [] => print msg_no_local_only
     | _ :: _ =>
         for_each_branch git (only_local local_branches remote_branches)
           repo_dir safe lines ;; ret tt
     end) (after_fetch repo_dir tr).
Proof.
  intros [H0 H1]. rewrite (main_validated git repo_dir safe lines tr H0).
  unfold bind at 1.
  rewrite (run_git_command_ok git [Lit.fetch; Lit.prune] repo_dir false
             (tr ++ [Subprocess (check_cmd repo_dir) true; Stdout msg_fetching])
             H1).
  unfold bind at 1, print at 1, emit at 1. rewrite <- app_assoc. reflexivity.
Qed.

Lemma main_local_fails (tr : trace) :
  fetch_succeeds git repo_dir tr ->
  returncode (git (after_fetch repo_dir tr) (local_cmd repo_dir)) <> 0%Z ->
  main git repo_dir safe lines tr
  = (Raise (CalledProcessError
              (returncode (git (after_fetch repo_dir tr) (local_cmd repo_dir)))
              (local_cmd repo_dir)),
     after_local repo_dir tr).
Proof.
  intros Hf Hfail. rewrite (main_fetched tr Hf).
  unfold bind at 1, get_local_branches.
  rewrite (run_git_command_fails git [Lit.branch; Lit.format; Lit.refname_short]
             repo_dir true _ Hfail).
  reflexivity.
Qed.

Lemma main_remote_fails (tr : trace) :
  fetch_succeeds git repo_dir tr ->
  returncode (git (after_fetch repo_dir tr) (local_cmd repo_dir)) = 0%Z ->
  returncode (git (after_local repo_dir tr) (remote_cmd repo_dir)) <> 0%Z ->
  main git repo_dir safe lines tr
  = (Raise (CalledProcessError
              (returncode (git (after_local repo_dir tr) (remote_cmd repo_dir)))
              (remote_cmd repo_dir)),
     after_remote repo_dir tr).
Proof.
  intros Hf Hl Hfail. rewrite (main_fetched tr Hf).
  unfold bind at 1, get_local_branches.
  rewrite (run_git_command_ok git [Lit.branch; Lit.format; Lit.refname_short]
             repo_dir true _ Hl).
  change (after_fetch repo_dir tr
          ++ [Subprocess ([Lit.git; Lit.dash_C; repo_dir]
                          ++ [Lit.branch; Lit.format; Lit.refname_short]) true])
    with (after_local repo_dir tr).
  unfold bind at 1, get_remote_branches. unfold bind at 1.
  rewrite (run_git_command_fails git
             [Lit.branch; Lit.dash_r; Lit.format; Lit.refname_short]
             repo_dir true _ Hfail).
  reflexivity.
Qed.

Lemma main_listed (tr : trace) :
  listings_succeed git repo_dir tr ->
  main git repo_dir safe lines tr
  = match only_local (listed_local git repo_dir tr)
            (listed_remote git repo_dir tr) with
    | [] => (Return tt, after_remote repo_dir tr ++ [Stdout msg_no_local_only])
    | _ :: _ =>
        (for_each_branch git
           (only_local (listed_local git repo_dir tr)
              (listed_remote git repo_dir tr))
           repo_dir safe lines ;; ret tt) (after_remote repo_dir tr)
    end.
Proof.
  intros ([H0 H1] & H2 & H3).
  exact (main_enumerates git repo_dir safe lines tr H0 H1 H2 H3).
Qed.

Lemma after_remote_events (tr : trace) :
  after_remote repo_dir tr
  = tr ++ [Subprocess (check_cmd repo_dir) true; Stdout msg_fetching;
           Subprocess (fetch_cmd repo_dir) false; Stdout msg_fetch_complete;
           Subprocess (local_cmd repo_dir) true;
           Subprocess (remote_cmd repo_dir) true].
Proof.
  unfold after_remote, after_local, after_fetch, after_check.
  rewrite <- !app_assoc. reflexivity.
Qed.


End Steps.

(** X10.  When the check, the fetch and the two listings succeed and there
    is no candidate, [main] writes the message that there is nothing to
    delete and returns: it writes no prompt, reads no line and runs no
    further command. *)
Theorem main_nothing_to_do
    (git : trace -> list str -> CompletedProcess)
    (repo_dir : str) (safe : bool) (lines : list str) (tr : trace) :
  listings_succeed git repo_dir tr ->
  only_local (listed_local git repo_dir tr) (listed_remote git repo_dir tr) = [] ->
  main git repo_dir safe lines tr
  = (Return tt,
     tr ++ [Subprocess (check_cmd repo_dir) true; Stdout msg_fetching;
            Subprocess (fetch_cmd repo_dir) false; Stdout msg_fetch_complete;
            Subprocess (local_cmd repo_dir) true;
            Subprocess (remote_cmd repo_dir) true;
            Stdout msg_no_local_only]).
Proof.
  intros Hs E. rewrite (main_listed git repo_dir safe lines tr Hs), E.
  rewrite after_remote_events, <- app_assoc. reflexivity.
Qed.

Lemma main_nothing_to_do_witness :
  main (git_lists (printed_listing [lit "main"; lit "feature/x"])
          (printed_listing [lit "origin/main"; lit "origin/feature/x"]))
    (lit "C:/repo") false [lit "y"] []
  = (Return tt,
     [Subprocess (check_cmd (lit "C:/repo")) true; Stdout msg_fetching;
      Subprocess (fetch_cmd (lit "C:/repo")) false; Stdout msg_fetch_complete;
      Subprocess (local_cmd (lit "C:/repo")) true;
      Subprocess (remote_cmd (lit "C:/repo")) true;
      Stdout msg_no_local_only]).
Proof.
  apply (main_nothing_to_do
           (git_lists (printed_listing [lit "main"; lit "feature/x"])
              (printed_listing [lit "origin/main"; lit "origin/feature/x"]))
           (lit "C:/repo") false [lit "y"] []).
  - repeat split; reflexivity.
  - reflexivity.
Defined.

(** X11.  When the listing of the local branches exits with a status
    other than 0, after the check and the fetch have succeeded, the error
    leaves [main] unhandled: the run ends with it after the message that
    the fetch is complete, before the remote listing and any prompt. *)
Theorem main_local_listing_failure
    (git : trace -> list str -> CompletedProcess)
    (repo_dir : str) (safe : bool) (lines : list str) (tr : trace) :
  let listing := [lit "git"; lit "-C"; repo_dir; lit "branch"; lit "--format";
                  lit "%(refname:short)"] in
  let fetched := after_fetch repo_dir tr in
  fetch_succeeds git repo_dir tr ->
  returncode (git fetched listing) <> 0%Z ->
  main git repo_dir safe lines tr
  = (Raise (CalledProcessError (returncode (git fetched listing)) listing),
     fetched ++ [Subprocess listing true]).
Proof.
  intros listing fetched Hf Hfail.
  exact (main_local_fails git repo_dir safe lines tr Hf Hfail).
Qed.

Lemma main_local_listing_failure_witness :
  main (git_failing (fun cmd => contains (lit "--format") cmd)) (lit "/repo")
    false [lit "y"] []
  = (Raise (CalledProcessError 1 (local_cmd (lit "/repo"))),
     [Subprocess (check_cmd (lit "/repo")) true; Stdout msg_fetching;
      Subprocess (fetch_cmd (lit "/repo")) false; Stdout msg_fetch_complete;
      Subprocess (local_cmd (lit "/repo")) true]).
Proof.
  apply (main_local_listing_failure
           (git_failing (fun cmd => contains (lit "--format") cmd)) (lit "/repo")
           false [lit "y"] []).
  - split; reflexivity.
  - discriminate.
Defined.

(** X12.  When the listing of the remote branches exits with a status
    other than 0, after the local listing has succeeded, the error leaves
    [main] unhandled as well: the run ends with it before any candidate is
    computed or asked about. *)
Theorem main_remote_listing_failure
    (git : trace -> list str -> CompletedProcess)
    (repo_dir : str) (safe : bool) (lines : list str) (tr : trace) :
  let listing := [lit "git"; lit "-C"; repo_dir; lit "branch"; lit "-r";
                  lit "--format"; lit "%(refname:short)"] in
  let listed := after_local repo_dir tr in
  fetch_succeeds git repo_dir tr ->
  returncode (git (after_fetch repo_dir tr) (local_cmd repo_dir)) = 0%Z ->
  returncode (git listed listing) <> 0%Z ->
  main git repo_dir safe lines tr
  = (Raise (CalledProcessError (returncode (git listed listing)) listing),
     listed ++ [Subprocess listing true]).
Proof.
  intros listing listed Hf Hl Hfail.
  exact (main_remote_fails git repo_dir safe lines tr Hf Hl Hfail).
Qed.

Lemma main_remote_listing_failure_witness :
  main (git_failing (fun cmd => contains (lit "-r") cmd)) (lit "/repo")
    false [lit "y"] []
  = (Raise (CalledProcessError 1 (remote_cmd (lit "/repo"))),
     [Subprocess (check_cmd (lit "/repo")) true; Stdout msg_fetching;
      Subprocess (fetch_cmd (lit "/repo")) false; Stdout msg_fetch_complete;
      Subprocess (local_cmd (lit "/repo")) true;
      Subprocess (remote_cmd (lit "/repo")) true]).
Proof.
  apply (main_remote_listing_failure
           (git_failing (fun cmd => contains (lit "-r") cmd)) (lit "/repo")
           false [lit "y"] []).
  - split; reflexivity.
  - reflexivity.
  - discriminate.
Defined.



(** X14.  The command runner runs one command, [git -C] with the
    repository path before the arguments, in either mode.  When the tool
    exits with status 0 it returns the captured lines in capturing mode
    and the empty list otherwise, whatever the tool wrote; when the tool
    exits with another status it raises [CalledProcessError] with that
    status and the command. *)
Theorem run_git_command_outcome
    (git : trace -> list str -> CompletedProcess)
    (args : list str) (repo_dir : str) (capture : bool) (tr : trace) :
  let cmd := lit "git" :: lit "-C" :: repo_dir :: args in
  exists result,
    run_git_command git args repo_dir capture tr
    = (result, tr ++ [Subprocess cmd capture]) /\
    (returncode (git tr cmd) = 0%Z ->
     result = Return (if capture then splitlines (strip (stdout (git tr cmd)))
                      else [])) /\
    (returncode (git tr cmd) <> 0%Z ->
     result = Raise (CalledProcessError (returncode (git tr cmd)) cmd)).
Proof.
  intros cmd.
  destruct (Z.eq_dec (returncode (git tr cmd)) 0) as [H|H].
  - rewrite (run_git_command_ok git args repo_dir capture tr H).
    eexists. split; [reflexivity|]. split; [reflexivity | contradiction].
  - rewrite (run_git_command_fails git args repo_dir capture tr H).
    eexists. split; [reflexivity|]. split; [contradiction | reflexivity].
Qed.

(** X15.  The deleter always returns: it runs the one deletion command
    and writes one line, which names the branch; the line says that the
    branch is deleted exactly when the command exits with status 0. *)
Theorem delete_branch_reports
    (git : trace -> list str -> CompletedProcess)
    (branch repo_dir : str) (force : bool) (tr : trace) :
  exists message,
    delete_branch git branch repo_dir force tr
    = (Return tt,
       tr ++ [Subprocess (delete_cmd branch repo_dir force) false;
              Stdout message]) /\
    occurs_in branch message /\
    (message = msg_deleted branch <->
     returncode (git tr (delete_cmd branch repo_dir force)) = 0%Z).
Proof.
  rewrite delete_branch_run. unfold delete_events.
  destruct (Z.eqb_spec (returncode (git tr (delete_cmd branch repo_dir force))) 0)
    as [H|H].
  - exists (msg_deleted branch). split; [reflexivity|]. split; [|tauto].
    exists (Lit.check_mark ++ lit " Deleted branch: "), [].
    unfold msg_deleted. rewrite app_nil_r, <- app_assoc. reflexivity.
  - exists (msg_could_not_delete branch). split; [reflexivity|]. split.
    + exists (Lit.cross_mark ++ lit " Could not delete branch '"),
        (lit "'. Maybe it's the current branch?").
      unfold msg_could_not_delete. rewrite <- !app_assoc. reflexivity.
    + split; [discriminate | contradiction].
Qed.
